(** * offchain-sdk transactor: nonce manager, replacement policy and dispatch loop

    A shallow embedding of the Go sources
      - package tracker:    the Noncer ([Acquire], [SetInFlight],
                            [RemoveInFlight], [RefreshLoop], ...),
      - package sender:     [DefaultTxReplacementPolicy.GetNew] (replacement.go),
      - package transactor: [TxrV2] ([SendTxRequest], [GetPreconfirmedState],
                            [retrieveBatch], [fire], [markState],
                            [removeStateTracking]),
    followed by the properties proved about them.

    Conventions.  A Go [uint64] is a [Z] in [0, 2^64) with its wrap-around
    written out ([U64.add]).  A skiplist keyed by [uint64] is a finite map
    [gmap Z V] together with the ordered-map operations the code calls on it.
    A Go [error] value is an element of [error]; a nil error is [None].  A
    method that updates its receiver takes the receiver's state and returns
    the new one.  What the chain, the queue, the factory and the sender
    answer is an argument of the function that asks them. *)

From Stdlib Require Import ZArith Lia.
From stdpp Require Import base option list gmap strings fin_maps.

Local Open Scope Z_scope.

(* stdpp's solvers clear hypotheses by name; the notices about it are noise. *)
Set Warnings "-clear-no-such-hyp".

(* ===================================================================== *)
(** * Part I: the embedding                                               *)
(* ===================================================================== *)

(** ** Machine integers *)

Module U64.

Definition modulus : Z := 2 ^ 64.
Definition max : Z := modulus - 1.

(** The value a [uint64] computation keeps of an integer. *)
Definition wrap (z : Z) : Z := z mod modulus.

(** Go's [a + b] on [uint64]. *)
Definition add (a b : Z) : Z := wrap (a + b).

Definition in_range (z : Z) : Prop := 0 ≤ z ≤ max.

End U64.

Module I32.

(** Go's conversion [int32(z)] of an [int]: the low 32 bits, read as signed. *)
Definition of_int (z : Z) : Z := (z + 2 ^ 31) mod 2 ^ 32 - 2 ^ 31.

End I32.

(** ** Go errors and the string test the replacement policy uses *)

Module GoErr.

(** The error values the code distinguishes: the two go-ethereum sentinels
    ([core.ErrNonceTooLow], [txpool.ErrReplaceUnderpriced]), any other leaf
    error [errors.New msg], and an error with its own message that wraps
    another one (as [fmt.Errorf] with [%w], or a type with [Unwrap]). *)
Inductive error : Type :=
| ErrNonceTooLow
| ErrReplaceUnderpriced
| ErrNew (msg : string)
| ErrWrap (msg : string) (inner : error).

Inductive sentinel : Type := NonceTooLow | ReplaceUnderpriced.

Definition sentinel_msg (s : sentinel) : string :=
  match s with
  | NonceTooLow => "nonce too low"
  | ReplaceUnderpriced => "replacement transaction underpriced"
  end.

(** [err.Error()] *)
Definition Error (e : error) : string :=
  match e with
  | ErrNonceTooLow => sentinel_msg NonceTooLow
  | ErrReplaceUnderpriced => sentinel_msg ReplaceUnderpriced
  | ErrNew msg => msg
  | ErrWrap msg _ => msg
  end.

(** [errors.Is(err, target)] for a sentinel target: identity along the
    [Unwrap] chain.  A nil error is never a sentinel. *)
Fixpoint is_sentinel (e : error) (s : sentinel) : bool :=
  match e, s with
  | ErrNonceTooLow, NonceTooLow => true
  | ErrReplaceUnderpriced, ReplaceUnderpriced => true
  | ErrWrap _ inner, _ => is_sentinel inner s
  | _, _ => false
  end.

Definition Is (err : option error) (s : sentinel) : bool :=
  match err with
  | None => false
  | Some e => is_sentinel e s
  end.

(** [strings.Contains(s, substr)] *)
Fixpoint Contains (s substr : string) : bool :=
  String.prefix substr s ||
  match s with
  | EmptyString => false
  | String _ s' => Contains s' substr
  end.

End GoErr.

Export GoErr (error).

(** ** The skiplist, as the ordered map the Noncer uses *)

Module skiplist.

Section ops.
Context {V : Type}.

(** [l.Get(k)]: the element stored under [k], nil when there is none. *)
Definition Get (k : Z) (l : gmap Z V) : option V := l !! k.

(** [l.Set(k, v)] *)
Definition SetKV (k : Z) (v : V) (l : gmap Z V) : gmap Z V := <[k := v]> l.

(** [l.Remove(k)] *)
Definition Remove (k : Z) (l : gmap Z V) : gmap Z V := delete k l.

(** [l.Len()] *)
Definition Len (l : gmap Z V) : nat := size l.

Definition later_of (k : Z) (v : V) (acc : option (Z * V)) : option (Z * V) :=
  match acc with
  | None => Some (k, v)
  | Some (k', _) => if k' <? k then Some (k, v) else acc
  end.

(** [l.Back()]: the last element in key order, nil on an empty list. *)
Definition Back (l : gmap Z V) : option (Z * V) := map_fold later_of None l.

End ops.

End skiplist.

(** ** go-ethereum's transaction, as far as the transactor reads it *)

Module coretypes.

(** A dynamic-fee transaction.  Fee caps and value are [*big.Int]
    (unbounded), nonce and gas are [uint64]. *)
Record Transaction : Type := mkTransaction {
  ChainID : Z;
  Nonce : Z;
  GasTipCap : Z;
  GasFeeCap : Z;
  Gas : Z;
  To : option string;
  Value : Z;
  Data : string
}.

Record Receipt : Type := mkReceipt {
  ReceiptStatus : Z
}.

End coretypes.

(** ** tracker: the Noncer *)

Module tracker.

(** An in-flight transaction embeds the chain transaction and carries the
    message ids of the requests batched into it. *)
Record InFlightTx : Type := mkInFlightTx {
  Transaction : coretypes.Transaction;
  TxMsgIDs : list string
}.

(** [tx.Nonce()], promoted from the embedded transaction. *)
Definition Nonce (tx : InFlightTx) : Z := coretypes.Nonce (Transaction tx).

(** The Noncer's mutable fields.  [acquired] maps a nonce to itself
    ([n.acquired.Set(nextNonce, nextNonce)]), [inFlight] maps a nonce to its
    transaction. *)
Record Noncer : Type := mkNoncer {
  acquired : gmap Z Z;
  inFlight : gmap Z InFlightTx;
  latestConfirmedNonce : Z
}.

(** [NewNoncer]: both lists empty, [latestConfirmedNonce] zero. *)
Definition NewNoncer : Noncer :=
  {| acquired := ∅; inFlight := ∅; latestConfirmedNonce := 0 |}.

(** The gap scan of [Acquire]:
    [for i := latestConfirmedNonce; i <= back.Nonce(); i++ { if inFlight.Get(i) == nil {...; break} }].
    [Some (Some i)]: left by [break] with the gap [i]; [Some None]: the
    condition failed, no gap; [None]: still looping after [fuel] rounds. *)
Fixpoint gapLoop (fuel : nat) (fl : gmap Z InFlightTx) (hi i : Z) : option (option Z) :=
  match fuel with
  | O => None
  | S fuel' =>
      if i <=? hi then
        match skiplist.Get i fl with
        | None => Some (Some i)
        | Some _ => gapLoop fuel' fl hi (U64.add i 1)
        end
      else Some None
  end.

Definition with_acquired (nonce : Z) (n : Noncer) : Noncer :=
  {| acquired := skiplist.SetKV nonce nonce (acquired n);
     inFlight := inFlight n;
     latestConfirmedNonce := latestConfirmedNonce n |}.

(** [Noncer.Acquire].  [pending] is what the chain answers to
    [PendingNonceAt] (asked only when nothing is in flight).  The result is
    the Go pair [(nonce, err)] and the Noncer afterwards; [None] when the
    scan has not ended within [fuel] rounds. *)
Definition Acquire (fuel : nat) (pending : Z * option error) (n : Noncer)
  : option ((Z * option error) * Noncer) :=
  match skiplist.Back (inFlight n) with
  | Some (_, val) =>
      match gapLoop fuel (inFlight n) (Nonce val) (latestConfirmedNonce n) with
      | None => None
      | Some found =>
          let nextNonce :=
            match found with
            | Some gap => gap
            | None => U64.add (Nonce val) 1
            end in
          Some ((nextNonce, None), with_acquired nextNonce n)
      end
  | None =>
      match pending with
      | (_, Some err) => Some ((0, Some err), n)
      | (nextNonce, None) => Some ((nextNonce, None), with_acquired nextNonce n)
      end
  end.

(** [Noncer.SetInFlight] *)
Definition SetInFlight (tx : InFlightTx) (n : Noncer) : Noncer :=
  {| acquired := skiplist.Remove (Nonce tx) (acquired n);
     inFlight := skiplist.SetKV (Nonce tx) tx (inFlight n);
     latestConfirmedNonce := latestConfirmedNonce n |}.

(** [Noncer.GetInFlight] and [Noncer.InFlight] *)
Definition GetInFlight (nonce : Z) (n : Noncer) : option InFlightTx :=
  skiplist.Get nonce (inFlight n).

Definition InFlight (nonce : Z) (n : Noncer) : bool :=
  bool_decide (is_Some (GetInFlight nonce n)).

(** [Noncer.RemoveInFlight] *)
Definition RemoveInFlight (tx : InFlightTx) (n : Noncer) : Noncer :=
  {| acquired := acquired n;
     inFlight := skiplist.Remove (Nonce tx) (inFlight n);
     latestConfirmedNonce := latestConfirmedNonce n |}.

(** [Noncer.Stats] *)
Definition Stats (n : Noncer) : nat * nat :=
  (skiplist.Len (acquired n), skiplist.Len (inFlight n)).

(** The assignment [n.latestConfirmedNonce, _ = NonceAt(...)] of the refresh
    loop (and of [MustInitializeExistingTxs], from [PendingNonceAt]). *)
Definition setLatestConfirmed (nonce : Z) (n : Noncer) : Noncer :=
  {| acquired := acquired n;
     inFlight := inFlight n;
     latestConfirmedNonce := nonce |}.

(** Calls on a Noncer, for talking about the states a run can reach. *)
Inductive call : Type :=
| CallAcquire (fuel : nat) (pending : Z * option error)
| CallSetInFlight (tx : InFlightTx)
| CallRemoveInFlight (tx : InFlightTx)
| CallRefresh (nonce : Z).

Definition exec (c : call) (n : Noncer) : option Noncer :=
  match c with
  | CallAcquire fuel pending => snd <$> Acquire fuel pending n
  | CallSetInFlight tx => Some (SetInFlight tx n)
  | CallRemoveInFlight tx => Some (RemoveInFlight tx n)
  | CallRefresh nonce => Some (setLatestConfirmed nonce n)
  end.

Fixpoint run (cs : list call) (n : Noncer) : option Noncer :=
  match cs with
  | [] => Some n
  | c :: cs' =>
      match exec c n with
      | None => None
      | Some n' => run cs' n'
      end
  end.

(** Arguments of the calls are [uint64] values. *)
Definition call_in_range (c : call) : Prop :=
  match c with
  | CallAcquire _ pending => U64.in_range (fst pending)
  | CallSetInFlight tx => U64.in_range (Nonce tx)
  | CallRemoveInFlight tx => U64.in_range (Nonce tx)
  | CallRefresh nonce => U64.in_range nonce
  end.

(** A state some sequence of calls leads to from [NewNoncer]. *)
Definition reachable (n : Noncer) : Prop :=
  ∃ cs, Forall call_in_range cs ∧ run cs NewNoncer = Some n.

End tracker.

(** ** The refresh loop and Go's one-shot timer *)

Module refresh.

Import tracker.

(** Durations and instants are nanoseconds, as in Go's [time] package. *)
Definition Second : Z := 1000000000.

(** [time.NewTimer(d)] sends one value on its channel [C], [d] after its
    creation, and nothing after that unless it is [Reset] (which the loop
    never does).  [drained] records that the value has been received. *)
Record Timer : Type := mkTimer {
  fires_at : Z;
  drained : bool
}.

Definition NewTimer (now d : Z) : Timer := {| fires_at := now + d; drained := false |}.

(** What a blocking [select] over [ctx.Done()] and [timer.C] entered at
    [now] wakes up on.  The context is cancelled at [cancel_at] ([None]:
    never).  When both channels are ready Go chooses either; [prefer_done]
    is that choice. *)
Inductive wake : Type :=
| WakeDone (at_time : Z)
| WakeTimer (at_time : Z)
| Blocked.

Definition select (prefer_done : bool) (now : Z) (cancel_at : option Z) (timer : Timer) : wake :=
  let done_at := Z.max now <$> cancel_at in
  let timer_at := if drained timer then None else Some (Z.max now (fires_at timer)) in
  match done_at, timer_at with
  | None, None => Blocked
  | Some d, None => WakeDone d
  | None, Some t => WakeTimer t
  | Some d, Some t =>
      if d <? t then WakeDone d
      else if t <? d then WakeTimer t
      else if prefer_done then WakeDone d else WakeTimer t
  end.

(** How a run of the loop stands after some rounds. *)
Inductive status : Type :=
| Returned          (* left through [case <-ctx.Done(): return] *)
| BlockedForever    (* parked in a [select] no channel of which will ever be ready *)
| Looping.          (* more rounds to go *)

Record trace : Type := mkTrace {
  final : Noncer;
  refreshed_at : list Z;   (* instants of [n.latestConfirmedNonce, _ = NonceAt(...)], oldest first *)
  ended : status
}.

(** The body of [for { select { ... } }] in [Noncer.RefreshLoop], run for at
    most [fuel] rounds.  [NonceAt t] is the chain's answer to a [NonceAt]
    call made at instant [t]; its error is dropped by the code. *)
Fixpoint loop (fuel : nat) (NonceAt : Z → Z * option error) (cancel_at : option Z)
    (prefer_done : nat → bool) (timer : Timer) (now : Z) (n : Noncer) (log : list Z) : trace :=
  match fuel with
  | O => {| final := n; refreshed_at := log; ended := Looping |}
  | S fuel' =>
      match select (prefer_done fuel') now cancel_at timer with
      | WakeDone _ => {| final := n; refreshed_at := log; ended := Returned |}
      | WakeTimer t =>
          loop fuel' NonceAt cancel_at prefer_done
            {| fires_at := fires_at timer; drained := true |} t
            (setLatestConfirmed (fst (NonceAt t)) n) (log ++ [t])
      | Blocked => {| final := n; refreshed_at := log; ended := BlockedForever |}
      end
  end.

(** [Noncer.RefreshLoop], started at instant [start]. *)
Definition RefreshLoop (fuel : nat) (NonceAt : Z → Z * option error) (cancel_at : option Z)
    (prefer_done : nat → bool) (start : Z) (n : Noncer) : trace :=
  loop fuel NonceAt cancel_at prefer_done (NewTimer start (5 * Second)) start n [].

End refresh.

(** ** sender: the replacement policy *)

Module sender.

Import GoErr.

(** The test both branches of [GetNew] make on the error:
    [errors.Is(err, sentinel) || (err != nil && strings.Contains(err.Error(), msg))]. *)
Definition indicates (err : option error) (s : sentinel) : bool :=
  Is err s ||
  match err with
  | None => false
  | Some e => Contains (Error e) (sentinel_msg s)
  end.

Section policy.

(** The transaction type and the helpers [GetNew] calls.  [GetNextNonce] is
    the factory's ([d.nf]); it reads and may update the factory's state. *)
Context {Tx NF : Type}.
Variable TxNonce : Tx → Z.
Variable SetNonce : Tx → Z → Tx.
Variable BumpGas : Tx → Tx.
Variable GetNextNonce : Z → NF → (Z * bool) * NF.

(** [DefaultTxReplacementPolicy.GetNew] *)
Definition GetNew (tx : Tx) (err : option error) (nf : NF) : Tx * NF :=
  let '(tx, shouldBumpGas, nf) :=
    if indicates err NonceTooLow then
      let '((newNonce, shouldBumpGas), nf') := GetNextNonce (TxNonce tx) nf in
      (SetNonce tx newNonce, shouldBumpGas, nf')
    else (tx, false, nf) in
  let tx :=
    if shouldBumpGas || indicates err ReplaceUnderpriced then BumpGas tx else tx in
  (tx, nf).

End policy.

(** The smallest integer not below [a / b] (for [b > 0]). *)
Definition ceil_div (a b : Z) : Z := - ((- a) / b).

(** Modelled from the spec: [BumpGas], a helper of the sender package
    defined outside replacement.go.  "Increase both GasTipCap and GasFeeCap
    by 15% ... Preserve all other fields", the factor applied "rounded up". *)
Definition BumpGas (tx : coretypes.Transaction) : coretypes.Transaction :=
  {| coretypes.ChainID := coretypes.ChainID tx;
     coretypes.Nonce := coretypes.Nonce tx;
     coretypes.GasTipCap := ceil_div (115 * coretypes.GasTipCap tx) 100;
     coretypes.GasFeeCap := ceil_div (115 * coretypes.GasFeeCap tx) 100;
     coretypes.Gas := coretypes.Gas tx;
     coretypes.To := coretypes.To tx;
     coretypes.Value := coretypes.Value tx;
     coretypes.Data := coretypes.Data tx |}.

(** Modelled from the spec: [SetNonce], a helper of the sender package
    defined outside replacement.go: the "nonce replacement", a copy of the
    transaction under the new nonce. *)
Definition SetNonce (tx : coretypes.Transaction) (nonce : Z) : coretypes.Transaction :=
  {| coretypes.ChainID := coretypes.ChainID tx;
     coretypes.Nonce := nonce;
     coretypes.GasTipCap := coretypes.GasTipCap tx;
     coretypes.GasFeeCap := coretypes.GasFeeCap tx;
     coretypes.Gas := coretypes.Gas tx;
     coretypes.To := coretypes.To tx;
     coretypes.Value := coretypes.Value tx;
     coretypes.Data := coretypes.Data tx |}.

(** The policy over go-ethereum transactions. *)
Definition GetNewTx {NF : Type} (GetNextNonce : Z → NF → (Z * bool) * NF) :=
  GetNew coretypes.Nonce SetNonce BumpGas GetNextNonce.

(** The helper calls of one [GetNew], in order: the same policy run over
    transactions that remember what was applied to them. *)
Inductive applied : Type :=
| AppliedSetNonce (nonce : Z)
| AppliedBumpGas.

Definition traced : Type := coretypes.Transaction * list applied.

Definition GetNewTraced {NF : Type} (GetNextNonce : Z → NF → (Z * bool) * NF) :=
  GetNew (Tx := traced)
    (λ tx, coretypes.Nonce (fst tx))
    (λ tx nonce, (SetNonce (fst tx) nonce, snd tx ++ [AppliedSetNonce nonce]))
    (λ tx, (BumpGas (fst tx), snd tx ++ [AppliedBumpGas]))
    GetNextNonce.

End sender.

(** ** transactor: requests, responses and the TxrV2 object *)

Module types.

(** [types.PreconfirmedState]; [StateUnknown] is the zero value, which a Go
    map yields for a key it does not hold. *)
Inductive PreconfirmedState : Type :=
| StateUnknown
| StateQueued
| StateBuilding
| StateSending
| StateInFlight.

(** [ethereum.CallMsg], as far as a request carries it. *)
Record CallMsg : Type := mkCallMsg {
  CallTo : option string;
  CallData : string;
  CallValue : Z;
  CallGas : Z
}.

(** [types.Request]: the call message, the client's message id and the
    time of creation. *)
Record Request : Type := mkRequest {
  Msg : CallMsg;
  MsgID : string;
  Time : Z
}.

(** The assignment [txReq.MsgID = id]. *)
Definition withMsgID (id : string) (r : Request) : Request :=
  {| Msg := Msg r; MsgID := id; Time := Time r |}.

End types.

Module transactor.

Import types.

(** [tracker.Response] and the statuses derived from it. *)
Record Response : Type := mkResponse {
  MsgIDs : list string;
  InitialTimes : list Z;
  Transaction : option coretypes.Transaction;
  Receipt : option coretypes.Receipt;
  Error : option error
}.

Inductive Status : Type :=
| StatusPending
| StatusSuccess
| StatusReverted
| StatusError
| StatusStaleMempool
| StatusStaleReceipt.

(** The fields of [Config] the transactor's own methods read. *)
Record Config : Type := mkConfig {
  TxBatchSize : Z;
  TxBatchTimeout : Z;
  WaitFullBatchTimeout : bool;
  EmptyQueueDelay : Z;
  UseQueueMessageID : bool
}.

Section txr.

(** The request queue ([queuetypes.Queue]): an interface, implemented in
    memory or over SQS.  [Push] answers the queue's id or an error;
    [ReceiveMany] the ids and requests received, or an error. *)
Context {Queue : Type}.
Variable Push : Request → Queue → (string * option error) * Queue.
Variable ReceiveMany : Z → Queue → (list string * list Request * option error) * Queue.

(** [txReq.Validate()] *)
Variable Validate : Request → option error.

(** The factory and the sender, which share the Noncer with the transactor
    and nothing else of it: [factory.New(noncer, signer, batcher)],
    [sender.New(factory)]. *)
Variable BuildTransactionFromRequests :
  list CallMsg → tracker.Noncer → (option coretypes.Transaction * option error) * tracker.Noncer.
Variable SendTransaction :
  option coretypes.Transaction → tracker.Noncer → option error * tracker.Noncer.

(** [resp.Status()] *)
Variable ResponseStatus : Response → Status.

(** The transactor's state: its own fields, and of the dispatcher and the
    tracker the responses handed to them so far (oldest first). *)
Record TxrV2 : Type := mkTxrV2 {
  cfg : Config;
  requests : Queue;
  noncer : tracker.Noncer;
  preconfirmedStates : gmap string PreconfirmedState;
  dispatched : list Response;
  tracked : list Response
}.

Definition set_requests (q : Queue) (t : TxrV2) : TxrV2 :=
  {| cfg := cfg t; requests := q; noncer := noncer t;
     preconfirmedStates := preconfirmedStates t;
     dispatched := dispatched t; tracked := tracked t |}.

Definition set_noncer (n : tracker.Noncer) (t : TxrV2) : TxrV2 :=
  {| cfg := cfg t; requests := requests t; noncer := n;
     preconfirmedStates := preconfirmedStates t;
     dispatched := dispatched t; tracked := tracked t |}.

Definition set_preconfirmedStates (m : gmap string PreconfirmedState) (t : TxrV2) : TxrV2 :=
  {| cfg := cfg t; requests := requests t; noncer := noncer t;
     preconfirmedStates := m;
     dispatched := dispatched t; tracked := tracked t |}.

(** [t.dispatcher.Dispatch(resp)] *)
Definition Dispatch (resp : Response) (t : TxrV2) : TxrV2 :=
  {| cfg := cfg t; requests := requests t; noncer := noncer t;
     preconfirmedStates := preconfirmedStates t;
     dispatched := dispatched t ++ [resp]; tracked := tracked t |}.

(** [t.tracker.Track(ctx, resp)] *)
Definition Track (resp : Response) (t : TxrV2) : TxrV2 :=
  {| cfg := cfg t; requests := requests t; noncer := noncer t;
     preconfirmedStates := preconfirmedStates t;
     dispatched := dispatched t; tracked := tracked t ++ [resp] |}.

(** [TxrV2.markState]: [for _, msgID := range msgIDs { m[msgID] = state }] *)
Definition markState (state : PreconfirmedState) (msgIDs : list string) (t : TxrV2) : TxrV2 :=
  set_preconfirmedStates
    (foldl (λ m msgID, <[msgID := state]> m) (preconfirmedStates t) msgIDs) t.

(** [TxrV2.removeStateTracking]: [for _, msgID := range msgIDs { delete(m, msgID) }] *)
Definition removeStateTracking (msgIDs : list string) (t : TxrV2) : TxrV2 :=
  set_preconfirmedStates
    (foldl (λ m msgID, delete msgID m) (preconfirmedStates t) msgIDs) t.

(** [TxrV2.GetPreconfirmedState]: the map read [m[msgID]]. *)
Definition GetPreconfirmedState (msgID : string) (t : TxrV2) : PreconfirmedState :=
  default StateUnknown (preconfirmedStates t !! msgID).

(** [TxrV2.SendTxRequest] *)
Definition SendTxRequest (txReq : Request) (t : TxrV2) : (string * option error) * TxrV2 :=
  match Validate txReq with
  | Some err => (("", Some err), t)
  | None =>
      let msgID := MsgID txReq in
      let '((queueID, err), q) := Push txReq (requests t) in
      let t := set_requests q t in
      match err with
      | Some err => (("", Some err), t)
      | None =>
          let msgID := if UseQueueMessageID (cfg t) then queueID else msgID in
          ((msgID, None), markState StateQueued [msgID] t)
      end
  end.

(** What one round of the [select] in [retrieveBatch] takes: the context's
    [Done] channel, the timer's channel, or, neither being ready, the
    default case, which reads the queue as it stands at that moment (other
    goroutines push to it meanwhile). *)
Inductive selected : Type :=
| CtxDone
| TimerC
| Default (q : Queue).

(** How [retrieveBatch] returned. *)
Inductive exit : Type :=
| ExitCancelled            (* [case <-ctx.Done(): return nil] *)
| ExitTimer                (* [case <-timer.C: return requests] *)
| ExitFull (waited : bool). (* the batch is full; [waited]: after [<-timer.C] *)

Inductive outcome : Type :=
| Return (batch : list Request) (how : exit)
| Panic                            (* [msgIDs[i]] out of range *)
| Receiving (batch : list Request). (* still in the loop when the rounds given end *)

(** [for i, txReq := range txReqs { if UseQueueMessageID { txReq.MsgID = msgIDs[i] }; requests = append(requests, txReq) }];
    [None] is the panic of an index out of range. *)
Fixpoint appendReceived (useQueueID : bool) (msgIDs : list string) (i : nat)
    (txReqs : list Request) (batch : list Request) : option (list Request) :=
  match txReqs with
  | [] => Some batch
  | txReq :: rest =>
      if useQueueID then
        match msgIDs !! i with
        | None => None
        | Some id => appendReceived useQueueID msgIDs (S i) rest (batch ++ [withMsgID id txReq])
        end
      else appendReceived useQueueID msgIDs (S i) rest (batch ++ [txReq])
  end.

(** The loop of [TxrV2.retrieveBatch], one element of [rounds] per round. *)
Fixpoint retrieveLoop (c : Config) (rounds : list selected) (batch : list Request) : outcome :=
  match rounds with
  | [] => Receiving batch
  | CtxDone :: _ => Return [] ExitCancelled
  | TimerC :: _ => Return batch ExitTimer
  | Default q :: rounds' =>
      let txsRemaining := TxBatchSize c - Z.of_nat (length batch) in
      if txsRemaining =? 0 then
        Return batch (ExitFull (WaitFullBatchTimeout c))
      else
        match ReceiveMany (I32.of_int txsRemaining) q with
        | ((_, _, Some _), _) => retrieveLoop c rounds' batch
        | ((msgIDs, txReqs, None), _) =>
            match appendReceived (UseQueueMessageID c) msgIDs 0 txReqs batch with
            | None => Panic
            | Some batch' => retrieveLoop c rounds' batch'
            end
        end
  end.

(** [TxrV2.retrieveBatch]: the loop entered with [var requests types.Requests] (nil). *)
Definition retrieveBatch (t : TxrV2) (rounds : list selected) : outcome :=
  retrieveLoop (cfg t) rounds [].

(** The body of [TxrV2.fire], up to its [return]s.  The [t.logger.Debug]
    line after a successful send writes to the log only and is left out. *)
Definition fireBody (resp : Response) (toBuild : bool) (msgs : list CallMsg) (t : TxrV2)
  : Response * TxrV2 :=
  let '(resp, t, built) :=
    if toBuild then
      let t := markState StateBuilding (MsgIDs resp) t in
      let '((tx, err), n) := BuildTransactionFromRequests msgs (noncer t) in
      let resp := {| MsgIDs := MsgIDs resp; InitialTimes := InitialTimes resp;
                     Transaction := tx; Receipt := Receipt resp; Error := err |} in
      (resp, set_noncer n t, bool_decide (err = None))
    else (resp, t, true) in
  if built then
    let t := markState StateSending (MsgIDs resp) t in
    let '(err, n) := SendTransaction (Transaction resp) (noncer t) in
    let resp := {| MsgIDs := MsgIDs resp; InitialTimes := InitialTimes resp;
                   Transaction := Transaction resp; Receipt := Receipt resp; Error := err |} in
    let t := set_noncer n t in
    match err with
    | Some _ => (resp, t)
    | None => (resp, Track resp (markState StateInFlight (MsgIDs resp) t))
    end
  else (resp, t).

(** [TxrV2.fire]: the body, then the deferred function, which dispatches the
    response when its status is [StatusError]. *)
Definition fire (resp : Response) (toBuild : bool) (msgs : list CallMsg) (t : TxrV2)
  : Response * TxrV2 :=
  let '(resp, t) := fireBody resp toBuild msgs t in
  match ResponseStatus resp with
  | StatusError => (resp, Dispatch resp t)
  | _ => (resp, t)
  end.

End txr.

End transactor.

(* ===================================================================== *)
(** * Part II: the vocabulary of the properties                           *)
(* ===================================================================== *)

Module NoncerSpec.

Import tracker.

(** [hi] is the largest key of [fl]: what the spec writes [max(inFlight)]. *)
Definition is_max_key {V : Type} (fl : gmap Z V) (hi : Z) : Prop :=
  is_Some (fl !! hi) ∧ ∀ k, is_Some (fl !! k) → k ≤ hi.

(** [g] is the first nonce of [[lo, hi]] absent from [fl]. *)
Definition is_first_gap {V : Type} (fl : gmap Z V) (lo hi g : Z) : Prop :=
  lo ≤ g ≤ hi ∧ fl !! g = None ∧ ∀ m, lo ≤ m < g → is_Some (fl !! m).

(** No nonce of [[lo, hi]] is absent from [fl]. *)
Definition no_gap {V : Type} (fl : gmap Z V) (lo hi : Z) : Prop :=
  ∀ m, lo ≤ m ≤ hi → is_Some (fl !! m).

(** What holds of the Noncer's fields by their Go types and by the way
    [SetInFlight] files a transaction: every key of [inFlight] is a
    [uint64] and is the nonce of the transaction stored under it, and
    [latestConfirmedNonce] is a [uint64]. *)
Definition keyed_by_nonce (k : Z) (tx : InFlightTx) : Prop :=
  Nonce tx = k ∧ 0 ≤ k ≤ U64.max.

Definition wf (n : Noncer) : Prop :=
  map_Forall keyed_by_nonce (inFlight n) ∧
  0 ≤ latestConfirmedNonce n ≤ U64.max.

(** The invariant [acquired ∩ inFlight = ∅], on the key sets. *)
Definition disjoint (n : Noncer) : Prop :=
  dom (acquired n) ∩ dom (inFlight n) = ∅.

(** A nonce the Noncer no longer holds in either list. *)
Definition released (nonce : Z) (n : Noncer) : Prop :=
  acquired n !! nonce = None ∧ inFlight n !! nonce = None.

#[global] Instance keyed_by_nonce_dec k tx : Decision (keyed_by_nonce k tx).
Proof. unfold keyed_by_nonce. apply _. Defined.

#[global] Instance wf_dec n : Decision (wf n).
Proof. unfold wf. apply _. Defined.

#[global] Instance released_dec nonce n : Decision (released nonce n).
Proof. unfold released. apply _. Defined.

#[global] Instance call_in_range_dec c : Decision (call_in_range c).
Proof. destruct c; unfold call_in_range, U64.in_range; apply _. Defined.

(** Rounds that suffice for the gap scan from [lo] up to [hi]. *)
Definition enough_fuel (lo hi : Z) (fuel : nat) : Prop :=
  (Z.to_nat (hi + 1 - lo) < fuel)%nat.

End NoncerSpec.

(** ** Example states of the Noncer *)

Module NoncerExamples.

Import tracker.

Definition tx_with_nonce (nonce : Z) : InFlightTx :=
  {| Transaction :=
       {| coretypes.ChainID := 1; coretypes.Nonce := nonce;
          coretypes.GasTipCap := 1; coretypes.GasFeeCap := 2; coretypes.Gas := 21000;
          coretypes.To := None; coretypes.Value := 0; coretypes.Data := "" |};
     TxMsgIDs := [] |}.

(** Nonces 0, 1 and 3 in flight, nothing confirmed: 2 is a gap. *)
Definition calls_holed : list call :=
  [CallSetInFlight (tx_with_nonce 0); CallSetInFlight (tx_with_nonce 1);
   CallSetInFlight (tx_with_nonce 3)].

Definition holed : Noncer :=
  SetInFlight (tx_with_nonce 3) (SetInFlight (tx_with_nonce 1)
    (SetInFlight (tx_with_nonce 0) NewNoncer)).

(** Nonces 0 and 2^64-1 in flight, and 2^64-1 the confirmed nonce read
    from the chain. *)
Definition calls_topped : list call :=
  [CallSetInFlight (tx_with_nonce 0); CallSetInFlight (tx_with_nonce U64.max);
   CallRefresh U64.max].

Definition topped : Noncer :=
  setLatestConfirmed U64.max (SetInFlight (tx_with_nonce U64.max)
    (SetInFlight (tx_with_nonce 0) NewNoncer)).

(** Nonce 0 in flight. *)
Definition one_in_flight : Noncer := SetInFlight (tx_with_nonce 0) NewNoncer.

(** A run that acquires, submits, acquires again and sees a confirmation. *)
Definition calls_mixed : list call :=
  [CallAcquire 4 (7, None); CallSetInFlight (tx_with_nonce 7);
   CallAcquire 4 (0, None); CallRefresh 7; CallAcquire 4 (0, None);
   CallSetInFlight (tx_with_nonce 8); CallRemoveInFlight (tx_with_nonce 7)].

End NoncerExamples.

(** ** An example chain for the refresh loop *)

Module RefreshExamples.

Import tracker refresh.

(** A chain that confirms one transaction of the sender per second. *)
Definition one_per_second (t : Z) : Z * option error := (t / Second, None).

Definition never_done (_ : nat) : bool := false.

End RefreshExamples.

(** ** Example inputs of the replacement policy *)

Module SenderExamples.

Import GoErr.

Definition tx0 : coretypes.Transaction :=
  {| coretypes.ChainID := 80085; coretypes.Nonce := 10;
     coretypes.GasTipCap := 7; coretypes.GasFeeCap := 101; coretypes.Gas := 21000;
     coretypes.To := Some "0x9d1dB8253105b007DDDE65Ce262f701814B91125";
     coretypes.Value := 0; coretypes.Data := "" |}.

(** A factory that answers the successor of the current nonce and asks for
    no bump, counting its calls. *)
Definition next_nonce (cur : Z) (calls : nat) : (Z * bool) * nat :=
  ((U64.add cur 1, false), S calls).

Definition underpriced : option error :=
  Some (ErrWrap "send: replacement transaction underpriced" ErrReplaceUnderpriced).

End SenderExamples.

(** ** The queue's promise, and the in-memory queue *)

Module QueueSpec.

Import types.

(** What the queue interface promises of [ReceiveMany(max)]: at most [max]
    requests (none for a [max] that is not positive), and one id per request. *)
Definition receives_at_most {Queue : Type}
    (ReceiveMany : Z → Queue → (list string * list Request * option error) * Queue) : Prop :=
  ∀ max q,
    (length (snd (fst (fst (ReceiveMany max q)))) ≤ Z.to_nat max)%nat ∧
    length (fst (fst (fst (ReceiveMany max q)))) = length (snd (fst (fst (ReceiveMany max q)))).

(** The in-memory queue: the requests waiting, oldest first, under the ids
    the queue gave them. *)
Definition mem_queue : Type := list (string * Request).

Definition mem_ReceiveMany (max : Z) (q : mem_queue)
  : (list string * list Request * option error) * mem_queue :=
  let got := take (Z.to_nat max) q in
  ((got.*1, got.*2, None), drop (Z.to_nat max) q).

Definition mem_Push (id : string) (r : Request) (q : mem_queue)
  : (string * option error) * mem_queue :=
  ((id, None), q ++ [(id, r)]).

End QueueSpec.

(** ** Example batches *)

Module BatchExamples.

Import types transactor QueueSpec.

Definition req (id : string) : Request :=
  {| Msg := {| CallTo := None; CallData := ""; CallValue := 0; CallGas := 0 |};
     MsgID := id; Time := 0 |}.

Definition waiting : mem_queue := [("q1", req "a"); ("q2", req "b"); ("q3", req "c")].

Definition batching (size : Z) (wait : bool) : TxrV2 (Queue := mem_queue) :=
  {| cfg := {| TxBatchSize := size; TxBatchTimeout := 100; WaitFullBatchTimeout := wait;
               EmptyQueueDelay := 10; UseQueueMessageID := true |};
     requests := waiting;
     noncer := tracker.NewNoncer;
     preconfirmedStates := ∅;
     dispatched := [];
     tracked := [] |}.

End BatchExamples.

(** ** Example collaborators of [fire] *)

Module FireExamples.

Import GoErr types transactor.

(** Modelled from the spec: [Response.Status] (a method of the tracker
    package, defined outside the Noncer's file), "a pure function of
    (Transaction, Receipt, Error)": an error makes the status [Error]; a
    receipt makes it [Success] when its status is 1 and [Reverted]
    otherwise; there being neither, [Pending]. *)
Definition status_of (r : Response) : Status :=
  match Error r, Receipt r with
  | Some _, _ => StatusError
  | None, Some receipt =>
      if coretypes.ReceiptStatus receipt =? 1 then StatusSuccess else StatusReverted
  | None, None => StatusPending
  end.

(** Modelled from the spec: a factory (package factory, whose
    [BuildTransactionFromRequests] the transactor calls) that gets as far as
    the spec's step 3, "Acquire a nonce from the Noncer", and then fails at
    step 5, "Sign via the signer".  [pending] is the chain's pending nonce. *)
Definition signing_fails (pending : Z) (msgs : list CallMsg) (n : tracker.Noncer)
  : (option coretypes.Transaction * option error) * tracker.Noncer :=
  match tracker.Acquire 1 (pending, None) n with
  | Some ((_, None), n') => ((None, Some (ErrNew "signer: key unavailable")), n')
  | Some ((_, Some err), n') => ((None, Some err), n')
  | None => ((None, Some (ErrNew "noncer: no nonce")), n)
  end.

(** A sender that is never reached. *)
Definition no_send (tx : option coretypes.Transaction) (n : tracker.Noncer)
  : option error * tracker.Noncer := (None, n).

Definition idle : TxrV2 (Queue := QueueSpec.mem_queue) :=
  {| cfg := {| TxBatchSize := 1; TxBatchTimeout := 100; WaitFullBatchTimeout := false;
               EmptyQueueDelay := 10; UseQueueMessageID := false |};
     requests := [];
     noncer := tracker.NewNoncer;
     preconfirmedStates := {["r1" := StateQueued]};
     dispatched := [];
     tracked := [] |}.

Definition resp_r1 : Response :=
  {| MsgIDs := ["r1"]; InitialTimes := [0]; Transaction := None; Receipt := None;
     Error := None |}.

Definition call_r1 : CallMsg :=
  {| CallTo := None; CallData := "0x"; CallValue := 0; CallGas := 0 |}.

(** [fire] of the request r1 on an idle transactor, the chain's pending
    nonce being 7 and the signer failing. *)
Definition fired : Response * TxrV2 (Queue := QueueSpec.mem_queue) :=
  fire (signing_fails 7) no_send status_of resp_r1 true [call_r1] idle.

End FireExamples.

(** Closes a decidable goal about concrete values by evaluating its decision. *)
Ltac by_computation := apply (bool_decide_unpack _); vm_compute; exact I.

(** ** baseapp: starting and stopping the application *)

Module baseapp.

(** What [Start] and [Stop] do, in the order they do it: the lines they
    log through [b.Logger()] (the logger under the namespace "baseapp"),
    their calls on the job manager and the server, and the goroutines they
    launch (what a goroutine does later is not part of the call). *)
Inductive event : Type :=
| LogInfo (msg : string)
| LogError (msg : string) (err : error)
| JobMgrStart                (* [b.jobMgr.Start(ctx)] *)
| GoRunProducers             (* [go func() { b.jobMgr.RunProducers(ctx) ... }()] *)
| GoServerStart              (* [go func() { b.server.Start(ctx) ... }()] *)
| JobMgrStop                 (* [b.jobMgr.Stop()] *)
| ServerStop.                (* [b.server.Stop()] *)

(** The fields of [BaseApp] its methods branch on.  [server] is a pointer
    and may be nil; a server is given by the port of its config. *)
Record BaseApp : Type := mkBaseApp {
  name : string;
  server : option Z
}.

(** [BaseApp.Start].  [jobMgrStart] is what [b.jobMgr.Start(ctx)] returns.
    The deferred [Info] runs when the function returns, on either path. *)
Definition Start (jobMgrStart : option error) (b : BaseApp) : list event * option error :=
  let deferred := [LogInfo "BaseApp successfully started"] in
  let entered := [LogInfo "Attempting to start BaseApp"; JobMgrStart] in
  match jobMgrStart with
  | Some err =>
      (entered ++ [LogError "Failed to start job manager" err] ++ deferred, Some err)
  | None =>
      let served :=
        match server b with
        | None => [LogInfo "No HTTP server registered, skipping server start"]
        | Some _ => [GoServerStart]
        end in
      (entered ++ [GoRunProducers] ++ served ++ deferred, None)
  end.

(** [BaseApp.Stop] *)
Definition Stop (b : BaseApp) : list event :=
  let deferred := [LogInfo "BaseApp successfully stopped"] in
  [LogInfo "Attempting to stop BaseApp"; JobMgrStop] ++
  match server b with
  | None => []
  | Some _ => [ServerStop]
  end ++ deferred.

End baseapp.

(** ** Vocabulary of the further properties *)

Module NoncerUse.

Import tracker.

(** How often a run calls [Acquire] and [SetInFlight]. *)
Definition is_Acquire (c : call) : bool :=
  match c with CallAcquire _ _ => true | _ => false end.

Definition is_SetInFlight (c : call) : bool :=
  match c with CallSetInFlight _ => true | _ => false end.

Definition count_calls (which : call → bool) (cs : list call) : nat :=
  length (filter (λ c, which c = true) cs).

(** What the factory and the sender do with the Noncer for one
    transaction, in the order the transactor's [fire] has them do it:
    [Acquire] a nonce, then [SetInFlight] the transaction [mk nonce] sent
    under it.  [k] such rounds in a row; the nonces acquired, in order. *)
Fixpoint acquire_and_submit (k : nat) (fuel : nat) (mk : Z → InFlightTx) (n : Noncer)
  : option (list Z * Noncer) :=
  match k with
  | O => Some ([], n)
  | S k' =>
      match Acquire fuel (0, None) n with
      | Some ((nonce, None), n1) =>
          match acquire_and_submit k' fuel mk (SetInFlight (mk nonce) n1) with
          | Some (nonces, n2) => Some (nonce :: nonces, n2)
          | None => None
          end
      | _ => None
      end
  end.

End NoncerUse.

(** ** transactor: [retrieveBatch] on a clock *)

Module batchclock.

Import types transactor.

(** One call of [retrieveBatch] in time: the instant it starts, at which
    [time.NewTimer(t.cfg.TxBatchTimeout)] is created, and the instant its
    context is cancelled ([None]: never). *)
Record world : Type := mkWorld {
  started : Z;
  cancelled : option Z
}.

(** The instant the timer sends on its channel. *)
Definition deadline (c : Config) (w : world) : Z := started w + TxBatchTimeout c.

(** [ctx.Done()] is ready at [now]. *)
Definition ctx_done (w : world) (now : Z) : bool :=
  match cancelled w with
  | Some at_time => at_time <=? now
  | None => false
  end.

(** [timer.C] is ready at [now]. *)
Definition timer_fired (c : Config) (w : world) (now : Z) : bool := deadline c w <=? now.

Section clocked.

Context {Queue : Type}.
Variable ReceiveMany : Z → Queue → (list string * list Request * option error) * Queue.

(** One round of the loop: the instant its [select] is evaluated, the queue
    as it stands then, and Go's choice should both channels be ready. *)
Record round : Type := mkRound {
  at_time : Z;
  queue_now : Queue;
  prefer_done : bool
}.

(** The case the [select] takes: a ready channel if there is one, either
    of them if both are, and the default case otherwise. *)
Definition select_at (c : Config) (w : world) (r : round) : selected :=
  match ctx_done w (at_time r), timer_fired c w (at_time r) with
  | true, true => if prefer_done r then CtxDone else TimerC
  | true, false => CtxDone
  | false, true => TimerC
  | false, false => Default (queue_now r)
  end.

(** How the call stands after some rounds; a return has its instant. *)
Inductive returned : Type :=
| ReturnAt (batch : list Request) (how : exit) (now : Z)
| PanicAt
| ReceivingAt (batch : list Request).

(** The loop of [TxrV2.retrieveBatch] on the clock.  A full batch with
    [WaitFullBatchTimeout] set blocks in [<-timer.C], which listens to
    nothing but the timer, and returns when the timer sends. *)
Fixpoint retrieveAt (c : Config) (w : world) (rounds : list round) (batch : list Request)
  : returned :=
  match rounds with
  | [] => ReceivingAt batch
  | r :: rounds' =>
      match select_at c w r with
      | CtxDone => ReturnAt [] ExitCancelled (at_time r)
      | TimerC => ReturnAt batch ExitTimer (at_time r)
      | Default q =>
          let txsRemaining := TxBatchSize c - Z.of_nat (length batch) in
          if txsRemaining =? 0 then
            if WaitFullBatchTimeout c
            then ReturnAt batch (ExitFull true) (deadline c w)
            else ReturnAt batch (ExitFull false) (at_time r)
          else
            match ReceiveMany (I32.of_int txsRemaining) q with
            | ((_, _, Some _), _) => retrieveAt c w rounds' batch
            | ((msgIDs, txReqs, None), _) =>
                match appendReceived (UseQueueMessageID c) msgIDs 0 txReqs batch with
                | None => PanicAt
                | Some batch' => retrieveAt c w rounds' batch'
                end
            end
      end
  end.

(** [TxrV2.retrieveBatch] on the clock. *)
Definition retrieveBatchAt (t : TxrV2 (Queue := Queue)) (w : world) (rounds : list round)
  : returned :=
  retrieveAt (cfg t) w rounds [].

(** The same state with the instants left out. *)
Definition untimed (r : returned) : outcome :=
  match r with
  | ReturnAt batch how _ => Return batch how
  | PanicAt => Panic
  | ReceivingAt batch => Receiving batch
  end.

End clocked.

End batchclock.

(** ** Example calls on the clock *)

Module ClockExamples.

Import types transactor batchclock QueueSpec BatchExamples.

(** A call started at 0 whose context is cancelled at 50, the batch timeout
    being 100. *)
Definition cancelled_at_50 : world := {| started := 0; cancelled := Some 50 |}.

(** Two rounds, at 10 and at 20: the first finds three requests waiting,
    the second none. *)
Definition two_rounds : list (round (Queue := mem_queue)) :=
  [ {| at_time := 10; queue_now := waiting; prefer_done := false |};
    {| at_time := 20; queue_now := []; prefer_done := false |} ].

(** A call that is never cancelled, and one round after its timer fired. *)
Definition never_cancelled : world := {| started := 0; cancelled := None |}.

Definition late_round : list (round (Queue := mem_queue)) :=
  [ {| at_time := 200; queue_now := waiting; prefer_done := false |} ].

(** Two rounds, at 10 and at 150: by the second the context is cancelled
    and the timer has fired, and the [select] takes the timer. *)
Definition rounds_until_150 : list (round (Queue := mem_queue)) :=
  [ {| at_time := 10; queue_now := waiting; prefer_done := false |};
    {| at_time := 150; queue_now := []; prefer_done := false |} ].

End ClockExamples.

(* ===================================================================== *)
(** * Part III: properties                                                *)
(* ===================================================================== *)

(** ** The skiplist's last element *)

Section skiplist_facts.
Context {V : Type}.
Implicit Types (l : gmap Z V) (k : Z) (v : V).

Lemma Back_last l :
  match skiplist.Back l with
  | None => l = ∅
  | Some (k, v) => l !! k = Some v ∧ ∀ k', is_Some (l !! k') → k' ≤ k
  end.
Proof.
  unfold skiplist.Back.
  apply (map_fold_weak_ind
    (λ r m, match r with
            | None => m = ∅
            | Some (k, v) => m !! k = Some v ∧ ∀ k', is_Some (m !! k') → k' ≤ k
            end)).
  - reflexivity.
  - intros i x m r Hfresh IH. destruct r as [[k v]|]; simpl.
    + destruct IH as [Hk Hmax]. destruct (Z.ltb_spec k i) as [Hlt|Hge].
      * split; [apply lookup_insert_eq|].
        intros k' [v' Hk']. apply lookup_insert_Some in Hk' as [[-> _]|[_ Hk']]; [lia|].
        specialize (Hmax k' (mk_is_Some _ _ Hk')). lia.
      * assert (i ≠ k) by (intros ->; congruence).
        split; [by rewrite lookup_insert_ne|].
        intros k' [v' Hk']. apply lookup_insert_Some in Hk' as [[-> _]|[_ Hk']]; [lia|].
        apply Hmax; eauto.
    + subst m. split; [apply lookup_insert_eq|].
      intros k' [v' Hk']. apply lookup_insert_Some in Hk' as [[-> _]|[_ Hk']]; [lia|].
      by rewrite lookup_empty in Hk'.
Qed.

Lemma Back_None l : skiplist.Back l = None ↔ l = ∅.
Proof.
  split.
  - intros H. pose proof (Back_last l) as HB. by rewrite H in HB.
  - intros ->. unfold skiplist.Back. apply map_fold_empty.
Qed.

Lemma Back_Some l k v :
  skiplist.Back l = Some (k, v) → l !! k = Some v ∧ NoncerSpec.is_max_key l k.
Proof.
  intros H. pose proof (Back_last l) as HB. rewrite H in HB.
  destruct HB as [Hk Hmax]. repeat split; eauto.
Qed.

Lemma is_max_key_unique l k1 k2 :
  NoncerSpec.is_max_key l k1 → NoncerSpec.is_max_key l k2 → k1 = k2.
Proof.
  intros [H1 M1] [H2 M2]. specialize (M1 _ H2). specialize (M2 _ H1). lia.
Qed.

Lemma Back_of_max l hi :
  NoncerSpec.is_max_key l hi → ∃ v, skiplist.Back l = Some (hi, v) ∧ l !! hi = Some v.
Proof.
  intros Hmax. destruct (skiplist.Back l) as [[k v]|] eqn:HB.
  - apply Back_Some in HB as [Hk Hk']. 
    assert (k = hi) as -> by eauto using is_max_key_unique. eauto.
  - apply Back_None in HB. subst l. destruct Hmax as [[? H] _].
    by rewrite lookup_empty in H.
Qed.

End skiplist_facts.

(** ** The Noncer *)

Section noncer_facts.

Import tracker NoncerSpec.

Implicit Types (n : Noncer) (fl : gmap Z InFlightTx) (tx : InFlightTx).

Lemma U64_add_1 i : 0 ≤ i < U64.max → U64.add i 1 = i + 1.
Proof.
  intros Hi. unfold U64.add, U64.wrap. apply Z.mod_small.
  unfold U64.max in Hi. lia.
Qed.

Lemma U64_add_in_range a b : 0 ≤ U64.add a b ≤ U64.max.
Proof.
  unfold U64.add, U64.wrap, U64.max.
  pose proof (Z.mod_pos_bound (a + b) U64.modulus) as H.
  unfold U64.modulus in *. lia.
Qed.

(** The scan ends within the rounds [enough_fuel] grants, on the first gap
    of the range or on none. *)
Lemma gapLoop_scan fuel fl hi i :
  0 ≤ i → hi < U64.max → enough_fuel i hi fuel →
  (∃ g, gapLoop fuel fl hi i = Some (Some g) ∧ is_first_gap fl i hi g) ∨
  (gapLoop fuel fl hi i = Some None ∧ no_gap fl i hi).
Proof.
  unfold enough_fuel. revert i. induction fuel as [|fuel IH]; intros i Hi Hhi Hfuel; [lia|].
  simpl. destruct (Z.leb_spec i hi) as [Hle|Hgt].
  - unfold skiplist.Get. destruct (fl !! i) as [tx|] eqn:Hlook.
    + rewrite U64_add_1 by lia.
      destruct (IH (i + 1) ltac:(lia) Hhi ltac:(lia))
        as [(g & Hg & (Hr & Habs & Hbelow))|[Hnone Hfull]].
      * left. exists g. split; [done|]. split; [lia|]. split; [done|].
        intros m Hm. destruct (decide (m = i)) as [->|]; [eauto|]. apply Hbelow. lia.
      * right. split; [done|]. intros m Hm.
        destruct (decide (m = i)) as [->|]; [eauto|]. apply Hfull. lia.
    + left. exists i. split; [done|]. split; [lia|]. split; [done|]. intros m Hm. lia.
  - right. split; [done|]. intros m Hm. lia.
Qed.

(** Whatever the rounds, a gap the scan reports is absent from the list. *)
Lemma gapLoop_gap_absent fuel fl hi i g :
  gapLoop fuel fl hi i = Some (Some g) → fl !! g = None.
Proof.
  revert i. induction fuel as [|fuel IH]; intros i; simpl; [done|].
  destruct (i <=? hi); [|done]. unfold skiplist.Get.
  destruct (fl !! i) eqn:Hlook; [apply IH|]. by intros [= <-].
Qed.

(** The scan can only end without a gap below the largest [uint64]: its
    counter never leaves the [uint64] range, so it has to pass [hi]. *)
Lemma gapLoop_none_below_max fuel fl hi i :
  0 ≤ i ≤ U64.max → gapLoop fuel fl hi i = Some None → hi < U64.max.
Proof.
  revert i. induction fuel as [|fuel IH]; intros i Hi; simpl; [done|].
  destruct (Z.leb_spec i hi) as [Hle|Hgt]; [|lia]. unfold skiplist.Get.
  destruct (fl !! i); [|done]. apply IH, U64_add_in_range.
Qed.

Lemma wf_lookup n k tx :
  wf n → inFlight n !! k = Some tx → Nonce tx = k ∧ 0 ≤ k ≤ U64.max.
Proof. intros [Hkeys _] Hk. exact (Hkeys k tx Hk). Qed.

(** The nonce a successful [Acquire] hands out is not in flight. *)
Lemma Acquire_not_inFlight fuel pending n nonce n' :
  wf n → Acquire fuel pending n = Some ((nonce, None), n') → inFlight n !! nonce = None.
Proof.
  intros Hwf. unfold Acquire.
  destruct (skiplist.Back (inFlight n)) as [[k val]|] eqn:HB.
  - apply Back_Some in HB as [Hk [_ Hmax]].
    destruct (wf_lookup _ _ _ Hwf Hk) as [Hnonce Hrange]. rewrite Hnonce.
    destruct (gapLoop fuel (inFlight n) k (latestConfirmedNonce n)) as [[g|]|] eqn:Hloop; [| |done].
    + intros [= <- <-]. eauto using gapLoop_gap_absent.
    + intros [= <- <-]. apply gapLoop_none_below_max in Hloop; [|apply Hwf].
      rewrite U64_add_1 by lia.
      destruct (inFlight n !! (k + 1)) eqn:Hnext; [|done].
      specialize (Hmax (k + 1) (mk_is_Some _ _ Hnext)). lia.
  - apply Back_None in HB. rewrite HB. intros _. apply lookup_empty.
Qed.

(** How [Acquire] changes the Noncer: not at all on an error, by one entry
    of [acquired] otherwise. *)
Lemma Acquire_state fuel pending n r n' :
  Acquire fuel pending n = Some (r, n') →
  (∃ err, snd r = Some err ∧ n' = n) ∨ (snd r = None ∧ n' = with_acquired (fst r) n).
Proof.
  unfold Acquire. destruct (skiplist.Back (inFlight n)) as [[k val]|].
  - destruct (gapLoop _ _ _ _); [|done]. intros [= <- <-]. by right.
  - destruct pending as [p [err|]]; intros [= <- <-]; [left; eauto|by right].
Qed.

Lemma wf_NewNoncer : wf NewNoncer.
Proof. split; [apply map_Forall_empty|]. simpl. unfold U64.max, U64.modulus. lia. Qed.

Lemma wf_exec c n n' : call_in_range c → wf n → exec c n = Some n' → wf n'.
Proof.
  intros Hc [Hkeys Hlatest]. destruct c as [fuel pending|tx|tx|nonce]; simpl.
  - destruct (Acquire fuel pending n) as [[r n1]|] eqn:HA; [|done]. intros [= <-].
    apply Acquire_state in HA as [(? & _ & ->)|[_ ->]]; by split.
  - intros [= <-]. split; [|done]. simpl. unfold skiplist.SetKV.
    apply map_Forall_insert_2; [|done]. split; [done|]. exact Hc.
  - intros [= <-]. split; [|done]. simpl. unfold skiplist.Remove.
    by apply map_Forall_delete.
  - intros [= <-]. split; [done|]. exact Hc.
Qed.

Lemma disjoint_NewNoncer : disjoint NewNoncer.
Proof. unfold disjoint. simpl. set_solver. Qed.

Lemma disjoint_exec c n n' : wf n → disjoint n → exec c n = Some n' → disjoint n'.
Proof.
  unfold disjoint. intros Hwf Hdis. destruct c as [fuel pending|tx|tx|nonce]; simpl.
  - destruct (Acquire fuel pending n) as [[[nonce err] n1]|] eqn:HA; [|done]. intros [= <-].
    pose proof HA as Hst. apply Acquire_state in Hst as [(? & _ & ->)|[Herr ->]]; [done|].
    simpl in Herr. subst err. apply Acquire_not_inFlight in HA; [|done].
    simpl. unfold skiplist.SetKV. rewrite dom_insert_L.
    apply not_elem_of_dom in HA. set_solver.
  - intros [= <-]. simpl. unfold skiplist.SetKV, skiplist.Remove.
    rewrite dom_insert_L, dom_delete_L. set_solver.
  - intros [= <-]. simpl. unfold skiplist.Remove. rewrite dom_delete_L. set_solver.
  - intros [= <-]. done.
Qed.

Lemma run_invariant cs n n' :
  Forall call_in_range cs → wf n → disjoint n → run cs n = Some n' → wf n' ∧ disjoint n'.
Proof.
  intros Hcs. revert n. induction Hcs as [|c cs Hc _ IH]; intros n Hwf Hdis; simpl.
  - by intros [= <-].
  - destruct (exec c n) as [n1|] eqn:Hexec; [|done].
    apply IH; eauto using wf_exec, disjoint_exec.
Qed.

Lemma reachable_wf n : reachable n → wf n.
Proof.
  intros (cs & Hcs & Hrun).
  by destruct (run_invariant cs _ _ Hcs wf_NewNoncer disjoint_NewNoncer Hrun).
Qed.

(** A range with an absent nonce has a first one. *)
Lemma first_gap_exists fl lo hi m :
  lo ≤ m ≤ hi → fl !! m = None → ∃ g, is_first_gap fl lo hi g.
Proof.
  intros Hm Habs.
  assert (∀ k lo', (Z.to_nat (m - lo') ≤ k)%nat → lo' ≤ m →
                   ∃ g, is_first_gap fl lo' hi g) as Hind.
  { induction k as [|k IH]; intros lo' Hk Hlo'.
    - assert (lo' = m) as -> by lia. exists m. repeat split; [lia..|done|]. intros j Hj. lia.
    - destruct (fl !! lo') as [tx|] eqn:Hlook.
      + assert (lo' ≠ m) by congruence.
        destruct (IH (lo' + 1) ltac:(lia) ltac:(lia)) as (g & Hr & Hg & Hbelow).
        exists g. split; [lia|]. split; [done|]. intros j Hj.
        destruct (decide (j = lo')) as [->|]; [eauto|]. apply Hbelow. lia.
      + exists lo'. split; [lia|]. split; [done|]. intros j Hj. lia. }
  apply (Hind (Z.to_nat (m - lo)) lo); lia.
Qed.

(** Up to and including the largest [uint64]: where the range has a gap,
    the scan ends on the first one, before its counter could wrap. *)
Lemma gapLoop_first_gap fuel fl hi i g :
  0 ≤ i → hi ≤ U64.max → enough_fuel i hi fuel → is_first_gap fl i hi g →
  gapLoop fuel fl hi i = Some (Some g).
Proof.
  unfold enough_fuel. revert i.
  induction fuel as [|fuel IH]; intros i Hi Hhi Hfuel (Hr & Habs & Hbelow); [lia|].
  simpl. destruct (Z.leb_spec i hi) as [_|?]; [|lia].
  unfold skiplist.Get. destruct (fl !! i) as [tx|] eqn:Hlook.
  - assert (i ≠ g) by congruence.
    rewrite U64_add_1 by lia. apply IH; [lia..|].
    split; [lia|]. split; [done|]. intros m Hm. apply Hbelow. lia.
  - destruct (decide (i = g)) as [->|Hne]; [done|].
    destruct (Hbelow i ltac:(lia)) as [? ?]. congruence.
Qed.

(** Whatever the rounds and wherever the scan ends: every nonce of the
    range below the gap it reports has been found in flight. *)
Lemma gapLoop_gap_passed fuel fl hi i g :
  0 ≤ i ≤ U64.max → hi ≤ U64.max → gapLoop fuel fl hi i = Some (Some g) →
  ∀ m, i ≤ m ≤ hi → m < g → is_Some (fl !! m).
Proof.
  revert i. induction fuel as [|fuel IH]; intros i Hi Hhi; simpl; [done|].
  destruct (Z.leb_spec i hi) as [Hle|?]; [|done].
  unfold skiplist.Get. destruct (fl !! i) as [tx|] eqn:Hlook.
  - intros Hloop m Hm Hlt. destruct (decide (m = i)) as [->|Hne]; [eauto|].
    destruct (decide (i = U64.max)) as [->|Hnot]; [lia|].
    rewrite U64_add_1 in Hloop by lia.
    apply (IH (i + 1)); [lia|done|done|lia|done].
  - intros [= <-] m Hm Hlt. lia.
Qed.

(** A scan that ends without a gap has found the whole range in flight. *)
Lemma gapLoop_none_full fuel fl hi i :
  0 ≤ i ≤ U64.max → gapLoop fuel fl hi i = Some None →
  ∀ m, i ≤ m ≤ hi → is_Some (fl !! m).
Proof.
  revert i. induction fuel as [|fuel IH]; intros i Hi; simpl; [done|].
  destruct (Z.leb_spec i hi) as [Hle|?]; [|intros _ m Hm; lia].
  unfold skiplist.Get. destruct (fl !! i) as [tx|] eqn:Hlook; [|done].
  intros Hloop m Hm.
  pose proof (gapLoop_none_below_max _ _ _ _ (U64_add_in_range i 1) Hloop) as Hhi.
  rewrite U64_add_1 in Hloop by lia.
  destruct (decide (m = i)) as [->|Hne]; [eauto|].
  apply (IH (i + 1)); [lia|done|lia].
Qed.

Lemma is_max_key_in_range n hi : wf n → is_max_key (inFlight n) hi → 0 ≤ hi ≤ U64.max.
Proof. intros Hwf [[tx Htx] _]. by destruct (wf_lookup _ _ _ Hwf Htx). Qed.

(** [Acquire] on a range with a gap, the largest [uint64] included. *)
Lemma Acquire_returns_first_gap n hi fuel pending g :
  wf n → is_max_key (inFlight n) hi →
  enough_fuel (latestConfirmedNonce n) hi fuel →
  is_first_gap (inFlight n) (latestConfirmedNonce n) hi g →
  Acquire fuel pending n = Some ((g, None), with_acquired g n).
Proof.
  intros Hwf Hmax Hfuel Hgap.
  destruct (Back_of_max _ _ Hmax) as (val & HB & Hval).
  destruct (wf_lookup _ _ _ Hwf Hval) as [Hnonce Hrange].
  unfold Acquire. rewrite HB, Hnonce.
  rewrite (gapLoop_first_gap fuel (inFlight n) hi (latestConfirmedNonce n) g);
    [done|apply Hwf|lia|done|done].
Qed.

(** Whenever [Acquire] returns a nonce, no nonce of the range below it is
    absent, in any well-formed state and after any number of rounds. *)
Lemma Acquire_passed_no_gap n hi fuel pending nonce n' :
  wf n → is_max_key (inFlight n) hi →
  Acquire fuel pending n = Some ((nonce, None), n') →
  ∀ m, latestConfirmedNonce n ≤ m ≤ hi → m < nonce → is_Some (inFlight n !! m).
Proof.
  intros Hwf Hmax HA.
  destruct (Back_of_max _ _ Hmax) as (val & HB & Hval).
  destruct (wf_lookup _ _ _ Hwf Hval) as [Hnonce Hrange].
  unfold Acquire in HA. rewrite HB, Hnonce in HA.
  destruct (gapLoop fuel (inFlight n) hi (latestConfirmedNonce n)) as [[g|]|] eqn:Hloop;
    [| |done]; injection HA as <- <-.
  - apply (gapLoop_gap_passed _ _ _ _ _ (proj2 Hwf) (proj2 Hrange) Hloop).
  - intros m Hm _. apply (gapLoop_none_full _ _ _ _ (proj2 Hwf) Hloop m Hm).
Qed.

End noncer_facts.

(** ** Gap filling, the disjointness invariant and repeated allocation *)

Section noncer_claims.

Import tracker NoncerSpec NoncerExamples.

Lemma is_max_key_of_Back {V : Type} (l : gmap Z V) k v :
  skiplist.Back l = Some (k, v) → is_max_key l k.
Proof. intros H. by apply Back_Some in H as [_ ?]. Qed.

(** C1 (amended).  Let the Noncer be well formed (every key of [inFlight]
    is the [uint64] nonce of its transaction, as in every reachable state:
    [reachable_wf]), with [inFlight] not empty and [hi] its largest nonce.
    If some nonce of [[latestConfirmedNonce, hi]] is absent from
    [inFlight], [Acquire] ends and returns the smallest such nonce, also
    when [hi] is 2^64-1.  If none is absent and [hi] is below 2^64-1, it
    ends and returns [hi + 1].  In every state, whatever [Acquire] returns,
    no nonce of that range below the returned one is absent from
    [inFlight].  When [inFlight] is empty [Acquire] returns the chain's
    [PendingNonceAt] answer, or the chain's error with the Noncer
    unchanged.  Every nonce returned without an error is in [acquired]
    afterwards. *)
Theorem Acquire_fills_first_gap (n : Noncer) (fuel : nat) :
  wf n →
  (∀ hi pending,
      is_max_key (inFlight n) hi →
      (∀ m, latestConfirmedNonce n ≤ m ≤ hi → inFlight n !! m = None →
            enough_fuel (latestConfirmedNonce n) hi fuel →
            ∃ gap, is_first_gap (inFlight n) (latestConfirmedNonce n) hi gap ∧
                   Acquire fuel pending n = Some ((gap, None), with_acquired gap n)) ∧
      (no_gap (inFlight n) (latestConfirmedNonce n) hi → hi < U64.max →
       enough_fuel (latestConfirmedNonce n) hi fuel →
       Acquire fuel pending n = Some ((hi + 1, None), with_acquired (hi + 1) n)) ∧
      (∀ nonce n',
         Acquire fuel pending n = Some ((nonce, None), n') →
         n' = with_acquired nonce n ∧
         acquired n' !! nonce = Some nonce ∧
         (∀ m, latestConfirmedNonce n ≤ m ≤ hi → m < nonce → is_Some (inFlight n !! m)))) ∧
  (inFlight n = ∅ →
      (∀ p, Acquire fuel (p, None) n = Some ((p, None), with_acquired p n) ∧
            acquired (with_acquired p n) !! p = Some p) ∧
      (∀ p err, Acquire fuel (p, Some err) n = Some ((0, Some err), n))).
Proof.
  intros Hwf. split.
  - intros hi pending Hmax. split; [|split].
    + intros m Hm Habs Hfuel.
      destruct (first_gap_exists (inFlight n) (latestConfirmedNonce n) hi m Hm Habs)
        as [gap Hgap].
      exists gap. split; [done|]. by apply (Acquire_returns_first_gap n hi).
    + intros Hfull Hhi Hfuel.
      destruct (Back_of_max _ _ Hmax) as (val & HB & Hval).
      destruct (wf_lookup _ _ _ Hwf Hval) as [Hnonce Hrange].
      unfold Acquire. rewrite HB, Hnonce.
      destruct (gapLoop_scan fuel (inFlight n) hi (latestConfirmedNonce n))
        as [(g & _ & (Hr & Habs & _))|[-> _]]; [apply Hwf|done..| |].
      * destruct (Hfull g Hr) as [? ?]. congruence.
      * by rewrite U64_add_1 by lia.
    + intros nonce n' HA.
      pose proof (Acquire_passed_no_gap _ _ _ _ _ _ Hwf Hmax HA) as Hpassed.
      apply Acquire_state in HA as [(err & Herr & _)|[_ ->]]; [done|].
      split; [done|]. split; [apply lookup_insert_eq|done].
  - intros Hempty. unfold Acquire.
    assert (skiplist.Back (inFlight n) = None) as -> by by apply Back_None.
    split; [|done]. intros p. split; [done|]. apply lookup_insert_eq.
Qed.

Lemma Acquire_fills_first_gap_witness :
  ∃ gap, is_first_gap (inFlight holed) (latestConfirmedNonce holed) 3 gap ∧
         Acquire 8 (0, None) holed = Some ((gap, None), with_acquired gap holed).
Proof.
  refine (proj1 (proj1 (Acquire_fills_first_gap holed 8 _) 3 (0, None) _) 2 _ _ _).
  - by_computation.
  - apply (is_max_key_of_Back _ 3 (tx_with_nonce 3)). vm_compute. reflexivity.
  - by_computation.
  - vm_compute. reflexivity.
  - unfold enough_fuel. simpl. lia.
Defined.

(** C1 (as stated) fails where the largest nonce in flight is 2^64-1: the
    scan's counter wraps to 0 and goes on below [latestConfirmedNonce].
    With 0 and 2^64-1 in flight and 2^64-1 confirmed, the range
    [[2^64-1, 2^64-1]] has no gap, and [Acquire] returns 1, which is
    neither [max(inFlight) + 1] nor its [uint64] value 0. *)
Lemma Acquire_wraps_past_max_uint64 :
  reachable topped ∧
  is_max_key (inFlight topped) U64.max ∧
  no_gap (inFlight topped) (latestConfirmedNonce topped) U64.max ∧
  Acquire 3 (0, None) topped = Some ((1, None), with_acquired 1 topped) ∧
  1 ≠ U64.max + 1 ∧ 1 ≠ U64.add U64.max 1.
Proof.
  split; [|split; [|split; [|split; [|split]]]].
  - exists calls_topped. split; [|reflexivity].
    by_computation.
  - apply (is_max_key_of_Back _ _ (tx_with_nonce U64.max)). vm_compute. reflexivity.
  - intros m Hm. assert (m = U64.max) as -> by (revert Hm; simpl; lia).
    eexists. vm_compute. reflexivity.
  - vm_compute. reflexivity.
  - vm_compute. discriminate.
  - vm_compute. discriminate.
Qed.

(** C7.  After any sequence of [Acquire], [SetInFlight] and
    [RemoveInFlight] calls (and refreshes of [latestConfirmedNonce]) on a
    new Noncer, no nonce is a key of both [acquired] and [inFlight]. *)
Theorem acquired_inFlight_stay_disjoint (cs : list call) (n : Noncer) :
  Forall call_in_range cs →
  run cs NewNoncer = Some n →
  dom (acquired n) ∩ dom (inFlight n) = ∅ ∧
  ∀ nonce, ¬ (is_Some (acquired n !! nonce) ∧ is_Some (inFlight n !! nonce)).
Proof.
  intros Hcs Hrun.
  destruct (run_invariant cs _ _ Hcs wf_NewNoncer disjoint_NewNoncer Hrun) as [_ Hdis].
  split; [exact Hdis|].
  intros nonce [Ha Hf]. apply elem_of_dom in Ha, Hf.
  unfold disjoint in Hdis. set_solver.
Qed.

Lemma acquired_inFlight_stay_disjoint_witness :
  ∃ n, run calls_mixed NewNoncer = Some n ∧
       dom (acquired n) ∩ dom (inFlight n) = ∅ ∧
       ∀ nonce, ¬ (is_Some (acquired n !! nonce) ∧ is_Some (inFlight n !! nonce)).
Proof.
  destruct (run calls_mixed NewNoncer) as [n|] eqn:Hrun; [|vm_compute in Hrun; discriminate].
  exists n. split; [reflexivity|].
  apply (acquired_inFlight_stay_disjoint calls_mixed n); [|exact Hrun].
  by_computation.
Defined.

(** C10.  With something in flight, the nonce [Acquire] returns does not
    depend on [acquired]; and there is a reachable state with a
    transaction in flight in which two calls of [Acquire] in a row return
    the same nonce, the second one a nonce that is already in [acquired]. *)
Theorem Acquire_twice_same_nonce :
  (∀ fuel pending n a,
      inFlight n ≠ ∅ →
      fst <$> Acquire fuel pending
                {| acquired := a; inFlight := inFlight n;
                   latestConfirmedNonce := latestConfirmedNonce n |}
      = fst <$> Acquire fuel pending n) ∧
  ∃ n, reachable n ∧ inFlight n ≠ ∅ ∧
    ∃ nonce n1 n2,
      Acquire 3 (0, None) n = Some ((nonce, None), n1) ∧
      acquired n1 !! nonce = Some nonce ∧
      Acquire 3 (0, None) n1 = Some ((nonce, None), n2).
Proof.
  split.
  - intros fuel pending n a Hne. unfold Acquire. simpl.
    destruct (skiplist.Back (inFlight n)) as [[k val]|] eqn:HB.
    + by destruct (gapLoop _ _ _ _).
    + by apply Back_None in HB.
  - exists one_in_flight. split; [|split].
    + exists [CallSetInFlight (tx_with_nonce 0)]. split; [|reflexivity].
      by_computation.
    + intros H. apply (f_equal (λ m, m !! 0)) in H. vm_compute in H. discriminate.
    + exists 1, (with_acquired 1 one_in_flight),
        (with_acquired 1 (with_acquired 1 one_in_flight)).
      split; [vm_compute; reflexivity|]. split; vm_compute; reflexivity.
Qed.

End noncer_claims.

(** ** The refresh loop *)

Section refresh_claims.

Import tracker refresh RefreshExamples.

(** Once the timer's value has been received the loop refreshes nothing any more. *)
Lemma loop_drained fuel NonceAt cancel_at prefer_done timer now n log :
  drained timer = true →
  let r := loop fuel NonceAt cancel_at prefer_done timer now n log in
  final r = n ∧ refreshed_at r = log.
Proof.
  intros Hdr. destruct fuel as [|fuel]; simpl; [done|].
  unfold select. rewrite Hdr. by destruct cancel_at.
Qed.

Lemma loop_at_most_one fuel NonceAt cancel_at prefer_done timer now n log :
  (length (refreshed_at (loop fuel NonceAt cancel_at prefer_done timer now n log))
   ≤ S (length log))%nat.
Proof.
  destruct fuel as [|fuel]; simpl; [lia|].
  destruct (select (prefer_done fuel) now cancel_at timer) as [t|t|]; simpl; try lia.
  match goal with
  | |- context [loop fuel ?f ?c ?p ?tm ?t' ?n' ?l'] =>
      destruct (loop_drained fuel f c p tm t' n' l' eq_refl) as [_ ->]
  end.
  rewrite length_app. simpl. lia.
Qed.

(** C4 fails on the code.  [RefreshLoop] reads the confirmed nonce from the
    chain at most once however long it runs: [time.NewTimer] delivers a
    single value and the loop never resets it.  With a context that is
    never cancelled the loop refreshes once, 5 s after its start, and then
    stays parked in its [select]; on a chain confirming a transaction per
    second [latestConfirmedNonce] is 5 from then on, also two rounds or a
    thousand rounds later. *)
Theorem RefreshLoop_refreshes_once :
  (∀ fuel NonceAt cancel_at prefer_done start n,
      (length (refreshed_at (RefreshLoop fuel NonceAt cancel_at prefer_done start n)) ≤ 1)%nat) ∧
  (∀ fuel NonceAt prefer_done start n,
      RefreshLoop (S (S fuel)) NonceAt None prefer_done start n =
      {| final := setLatestConfirmed (fst (NonceAt (start + 5 * Second))) n;
         refreshed_at := [start + 5 * Second];
         ended := BlockedForever |}) ∧
  latestConfirmedNonce (final (RefreshLoop 2 one_per_second None never_done 0 NewNoncer)) = 5 ∧
  latestConfirmedNonce (final (RefreshLoop 1000 one_per_second None never_done 0 NewNoncer)) = 5 ∧
  fst (one_per_second (60 * Second)) = 60.
Proof.
  split; [|split; [|split; [|split]]].
  - intros. unfold RefreshLoop. apply (loop_at_most_one _ _ _ _ _ _ _ []).
  - intros fuel NonceAt prefer_done start n. unfold RefreshLoop, NewTimer. simpl.
    unfold select. simpl. rewrite Z.max_r by (unfold Second; lia). reflexivity.
  - vm_compute. reflexivity.
  - vm_compute. reflexivity.
  - vm_compute. reflexivity.
Qed.

End refresh_claims.

(** ** The replacement policy *)

Section replacement_claims.

Import GoErr sender SenderExamples.

Context {NF : Type} (GetNextNonce : Z → NF → (Z * bool) * NF).

Lemma ceil_div_ge a b : 0 < b → a ≤ b * ceil_div a b.
Proof.
  intros Hb. unfold ceil_div.
  pose proof (Z.mul_div_le (- a) b Hb). lia.
Qed.

Lemma ceil_div_least a b z : 0 < b → a ≤ b * z → ceil_div a b ≤ z.
Proof.
  intros Hb Hz. unfold ceil_div.
  assert (- z ≤ (- a) / b); [|lia].
  apply Z.div_le_lower_bound; lia.
Qed.

(** C2.  [GetNew] applies [SetNonce] exactly when the error indicates
    "nonce too low", and then with the nonce [GetNextNonce] returns for the
    transaction's nonce; it applies [BumpGas] exactly when the error
    indicates "replacement transaction underpriced" or the nonce was
    replaced and [GetNextNonce] said [shouldBumpGas] (which, for a factory
    that says so exactly when the new nonce is the current one, is: the
    nonce was replaced by itself); on any other error, and on none, the
    transaction comes back unchanged and the factory is not consulted. *)
Theorem GetNew_replaces_nonce_and_bumps_gas
    (tx : coretypes.Transaction) (err : option error) (nf : NF) :
  let newNonce := fst (fst (GetNextNonce (coretypes.Nonce tx) nf)) in
  let shouldBumpGas := snd (fst (GetNextNonce (coretypes.Nonce tx) nf)) in
  let out := fst (GetNewTraced GetNextNonce (tx, []) err nf) in
  fst out = fst (GetNewTx GetNextNonce tx err nf) ∧
  (∀ nonce, AppliedSetNonce nonce ∈ snd out ↔
            indicates err NonceTooLow = true ∧ nonce = newNonce) ∧
  (AppliedBumpGas ∈ snd out ↔
     indicates err ReplaceUnderpriced = true ∨
     (indicates err NonceTooLow = true ∧ shouldBumpGas = true)) ∧
  ((shouldBumpGas = true ↔ newNonce = coretypes.Nonce tx) →
   (AppliedBumpGas ∈ snd out ↔
      indicates err ReplaceUnderpriced = true ∨
      (indicates err NonceTooLow = true ∧ newNonce = coretypes.Nonce tx))) ∧
  (indicates err NonceTooLow = false → indicates err ReplaceUnderpriced = false →
   GetNewTx GetNextNonce tx err nf = (tx, nf)) ∧
  snd (GetNewTx GetNextNonce tx err nf) =
    (if indicates err NonceTooLow then snd (GetNextNonce (coretypes.Nonce tx) nf) else nf).
Proof.
  unfold GetNewTraced, GetNewTx, GetNew. simpl.
  destruct (GetNextNonce (coretypes.Nonce tx) nf) as [[newNonce shouldBumpGas] nf'].
  simpl.
  destruct (indicates err NonceTooLow), (indicates err ReplaceUnderpriced),
    shouldBumpGas; simpl;
    (split; [reflexivity|]);
    (split; [intros nonce; rewrite ?elem_of_cons, ?elem_of_nil; naive_solver|]);
    (split; [rewrite ?elem_of_cons, ?elem_of_nil; naive_solver|]);
    (split; [rewrite ?elem_of_cons, ?elem_of_nil; naive_solver|]);
    (split; [naive_solver|reflexivity]).
Qed.

(** C3.  A transaction the policy decides to gas-bump comes back with
    [GasTipCap] and [GasFeeCap] at the ceiling of 1.15 times the old ones
    (so at least 1.15 times them), and with every other field as it was,
    but for the nonce when the nonce was replaced. *)
Theorem GetNew_bump_raises_both_caps
    (tx : coretypes.Transaction) (err : option error) (nf : NF) :
  let newNonce := fst (fst (GetNextNonce (coretypes.Nonce tx) nf)) in
  let shouldBumpGas := snd (fst (GetNextNonce (coretypes.Nonce tx) nf)) in
  let tx' := fst (GetNewTx GetNextNonce tx err nf) in
  indicates err ReplaceUnderpriced = true ∨
    (indicates err NonceTooLow = true ∧ shouldBumpGas = true) →
  (ceil_div (115 * coretypes.GasTipCap tx) 100 ≤ coretypes.GasTipCap tx' ∧
   115 * coretypes.GasTipCap tx ≤ 100 * coretypes.GasTipCap tx') ∧
  (ceil_div (115 * coretypes.GasFeeCap tx) 100 ≤ coretypes.GasFeeCap tx' ∧
   115 * coretypes.GasFeeCap tx ≤ 100 * coretypes.GasFeeCap tx') ∧
  coretypes.Nonce tx' =
    (if indicates err NonceTooLow then newNonce else coretypes.Nonce tx) ∧
  coretypes.ChainID tx' = coretypes.ChainID tx ∧
  coretypes.Gas tx' = coretypes.Gas tx ∧
  coretypes.To tx' = coretypes.To tx ∧
  coretypes.Value tx' = coretypes.Value tx ∧
  coretypes.Data tx' = coretypes.Data tx.
Proof.
  unfold GetNewTx, GetNew. simpl.
  destruct (GetNextNonce (coretypes.Nonce tx) nf) as [[newNonce shouldBumpGas] nf'].
  simpl.
  pose proof (ceil_div_ge (115 * coretypes.GasTipCap tx) 100 ltac:(lia)).
  pose proof (ceil_div_ge (115 * coretypes.GasFeeCap tx) 100 ltac:(lia)).
  destruct (indicates err NonceTooLow), (indicates err ReplaceUnderpriced),
    shouldBumpGas; simpl; intros Hbump;
    try (exfalso; naive_solver); repeat split; lia.
Qed.

End replacement_claims.

Lemma GetNew_bump_raises_both_caps_witness :
  let tx' := fst (sender.GetNewTx SenderExamples.next_nonce
                    SenderExamples.tx0 SenderExamples.underpriced 0%nat) in
  coretypes.GasTipCap tx' = 9 ∧ coretypes.GasFeeCap tx' = 117 ∧
  115 * 7 ≤ 100 * coretypes.GasTipCap tx' ∧
  115 * 101 ≤ 100 * coretypes.GasFeeCap tx' ∧
  coretypes.Nonce tx' = 10.
Proof.
  pose proof (GetNew_bump_raises_both_caps SenderExamples.next_nonce
                SenderExamples.tx0 SenderExamples.underpriced 0%nat) as H.
  cbv zeta in H. specialize (H (or_introl eq_refl)).
  destruct H as ((_ & Htip) & (_ & Hfee) & Hnonce & _).
  cbv zeta. split; [vm_compute; reflexivity|]. split; [vm_compute; reflexivity|].
  split; [exact Htip|]. split; [exact Hfee|exact Hnonce].
Defined.

(** ** The transactor: preconfirmed states and ingress *)

Section state_claims.

Import types transactor.

Context {Queue : Type}.
Variable Push : Request → Queue → (string * option error) * Queue.
Variable Validate : Request → option error.

Implicit Types (t : TxrV2 (Queue := Queue)) (m : gmap string PreconfirmedState).

Lemma lookup_foldl_delete m (msgIDs : list string) (k : string) :
  foldl (λ m msgID, delete msgID m) m msgIDs !! k =
  if decide (k ∈ msgIDs) then None else m !! k.
Proof.
  revert m. induction msgIDs as [|id ids IH]; intros m; cbn [foldl].
  - destruct (decide (k ∈ [])) as [Hin|]; [|done]. by apply elem_of_nil in Hin.
  - rewrite IH.
    destruct (decide (k ∈ ids)) as [Hin|Hnin], (decide (k ∈ id :: ids)) as [Hin'|Hnin'];
      try done.
    + exfalso. apply Hnin'. by apply list_elem_of_further.
    + apply elem_of_cons in Hin' as [->|?]; [|done]. apply lookup_delete_eq.
    + apply lookup_delete_ne. intros ->. apply Hnin', list_elem_of_here.
Qed.

Lemma TxrV2_eq t1 t2 :
  cfg t1 = cfg t2 → requests t1 = requests t2 → noncer t1 = noncer t2 →
  preconfirmedStates t1 = preconfirmedStates t2 →
  dispatched t1 = dispatched t2 → tracked t1 = tracked t2 → t1 = t2.
Proof. destruct t1, t2; simpl; congruence. Qed.

(** C9.  After [removeStateTracking] of a message id, [GetPreconfirmedState]
    of it is [StateUnknown]; removing it a second time changes nothing; and
    the entries of all other ids are as before.  The same holds of a whole
    list of ids removed in one call. *)
Theorem removeStateTracking_idempotent (msgID : string) (t : TxrV2 (Queue := Queue)) :
  GetPreconfirmedState msgID (removeStateTracking [msgID] t) = StateUnknown ∧
  removeStateTracking [msgID] (removeStateTracking [msgID] t) = removeStateTracking [msgID] t ∧
  (∀ other, other ≠ msgID →
     preconfirmedStates (removeStateTracking [msgID] t) !! other = preconfirmedStates t !! other ∧
     GetPreconfirmedState other (removeStateTracking [msgID] t) = GetPreconfirmedState other t) ∧
  (∀ msgIDs,
     (∀ id, id ∈ msgIDs → GetPreconfirmedState id (removeStateTracking msgIDs t) = StateUnknown) ∧
     removeStateTracking msgIDs (removeStateTracking msgIDs t) = removeStateTracking msgIDs t ∧
     (∀ other, other ∉ msgIDs →
        preconfirmedStates (removeStateTracking msgIDs t) !! other = preconfirmedStates t !! other)).
Proof.
  assert (Hmany : ∀ msgIDs,
     (∀ id, id ∈ msgIDs → GetPreconfirmedState id (removeStateTracking msgIDs t) = StateUnknown) ∧
     removeStateTracking msgIDs (removeStateTracking msgIDs t) = removeStateTracking msgIDs t ∧
     (∀ other, other ∉ msgIDs →
        preconfirmedStates (removeStateTracking msgIDs t) !! other = preconfirmedStates t !! other)).
  { intros msgIDs. split; [|split].
    - intros id Hid. unfold GetPreconfirmedState, removeStateTracking. simpl.
      rewrite lookup_foldl_delete. by rewrite decide_True.
    - apply TxrV2_eq; try reflexivity. simpl. apply map_eq. intros k.
      rewrite !lookup_foldl_delete. by destruct (decide (k ∈ msgIDs)).
    - intros other Hother. unfold removeStateTracking. simpl.
      rewrite lookup_foldl_delete. by rewrite decide_False. }
  destruct (Hmany [msgID]) as (Hclear & Hidem & Hother).
  split; [apply Hclear, list_elem_of_here|]. split; [exact Hidem|]. split; [|exact Hmany].
  intros other Hne.
  assert (other ∉ [msgID]) as Hnin by (intros ?%list_elem_of_singleton; done).
  split; [by apply Hother|]. unfold GetPreconfirmedState. by rewrite Hother.
Qed.

(** C8.  [SendTxRequest] of a request that fails validation returns the
    error, and neither the queue nor the preconfirmed states change.  When
    validation and the push succeed, the queue is the one the push left,
    the id returned is the queue's id if [UseQueueMessageID] is set and the
    request's own [MsgID] otherwise, and that id, and no other, is marked
    [StateQueued]. *)
Theorem SendTxRequest_validates_then_queues (txReq : Request) (t : TxrV2 (Queue := Queue)) :
  (∀ err, Validate txReq = Some err →
     SendTxRequest Push Validate txReq t = (("", Some err), t) ∧
     requests (snd (SendTxRequest Push Validate txReq t)) = requests t ∧
     preconfirmedStates (snd (SendTxRequest Push Validate txReq t)) = preconfirmedStates t) ∧
  (∀ queueID q, Validate txReq = None → Push txReq (requests t) = ((queueID, None), q) →
     let msgID := if UseQueueMessageID (cfg t) then queueID else MsgID txReq in
     let t' := snd (SendTxRequest Push Validate txReq t) in
     fst (SendTxRequest Push Validate txReq t) = (msgID, None) ∧
     requests t' = q ∧
     preconfirmedStates t' = <[msgID := StateQueued]> (preconfirmedStates t) ∧
     GetPreconfirmedState msgID t' = StateQueued ∧
     (∀ other, other ≠ msgID → GetPreconfirmedState other t' = GetPreconfirmedState other t)).
Proof.
  split.
  - intros err Hval. unfold SendTxRequest. by rewrite Hval.
  - intros queueID q Hval Hpush. unfold SendTxRequest. rewrite Hval, Hpush. simpl.
    split; [done|]. split; [done|]. split; [done|].
    unfold GetPreconfirmedState. simpl. split.
    + by rewrite lookup_insert_eq.
    + intros other Hne. by rewrite lookup_insert_ne.
Qed.

End state_claims.

(** ** The transactor: batching *)

Section batch_claims.

Import types transactor QueueSpec.

Context {Queue : Type}.
Variable ReceiveMany : Z → Queue → (list string * list Request * option error) * Queue.
Hypothesis ReceiveMany_bounded : receives_at_most ReceiveMany.

Implicit Types (c : Config) (batch : list Request) (rounds : list (selected (Queue := Queue))).

Lemma I32_of_int_le z : 0 ≤ z → I32.of_int z ≤ z.
Proof.
  intros Hz. unfold I32.of_int.
  pose proof (Z.mod_le (z + 2 ^ 31) (2 ^ 32) ltac:(lia) ltac:(lia)). lia.
Qed.

Lemma appendReceived_length useQueueID msgIDs i txReqs batch batch' :
  appendReceived useQueueID msgIDs i txReqs batch = Some batch' →
  length batch' = (length batch + length txReqs)%nat.
Proof.
  revert i batch. induction txReqs as [|r rs IH]; intros i batch; simpl.
  - intros [= <-]. lia.
  - destruct useQueueID.
    + destruct (msgIDs !! i); [|done]. intros H%IH. rewrite length_app in H. simpl in H. lia.
    + intros H%IH. rewrite length_app in H. simpl in H. lia.
Qed.

Lemma appendReceived_in_range useQueueID msgIDs i txReqs batch :
  (i + length txReqs ≤ length msgIDs)%nat →
  is_Some (appendReceived useQueueID msgIDs i txReqs batch).
Proof.
  revert i batch. induction txReqs as [|r rs IH]; intros i batch; simpl; [eauto|].
  intros Hlen. destruct useQueueID.
  - destruct (lookup_lt_is_Some_2 msgIDs i ltac:(lia)) as [id ->]. apply IH. lia.
  - apply IH. lia.
Qed.

(** A batch within the size stays within it, round after round, and no
    round panics. *)
Lemma retrieveLoop_bounded c rounds batch :
  (Z.of_nat (length batch) ≤ TxBatchSize c) →
  match retrieveLoop ReceiveMany c rounds batch with
  | Return batch' how =>
      Z.of_nat (length batch') ≤ TxBatchSize c ∧
      match how with
      | ExitCancelled => batch' = []
      | ExitTimer => True
      | ExitFull waited =>
          Z.of_nat (length batch') = TxBatchSize c ∧ waited = WaitFullBatchTimeout c
      end
  | Panic => False
  | Receiving batch' => Z.of_nat (length batch') ≤ TxBatchSize c
  end.
Proof.
  revert batch. induction rounds as [|r rounds IH]; intros batch Hlen; simpl; [done|].
  destruct r as [| |q].
  - simpl. split; [lia|done].
  - done.
  - destruct (Z.eqb_spec (TxBatchSize c - Z.of_nat (length batch)) 0) as [Hfull|Hroom].
    + split; [done|]. split; [lia|done].
    + destruct (ReceiveMany_bounded (I32.of_int (TxBatchSize c - Z.of_nat (length batch))) q)
        as [Hmost Hids].
      destruct (ReceiveMany _ q) as [[[msgIDs txReqs] [err|]] q']; simpl in *; [by apply IH|].
      destruct (appendReceived_in_range (UseQueueMessageID c) msgIDs 0 txReqs batch
                  ltac:(lia)) as [batch' Happ].
      rewrite Happ. apply IH. apply appendReceived_length in Happ.
      pose proof (I32_of_int_le (TxBatchSize c - Z.of_nat (length batch)) ltac:(lia)). lia.
Qed.

(** Rounds after a batch is still being received go on from that batch. *)
Lemma retrieveLoop_app c rounds rounds' batch batch' :
  retrieveLoop ReceiveMany c rounds batch = Receiving batch' →
  retrieveLoop ReceiveMany c (rounds ++ rounds') batch = retrieveLoop ReceiveMany c rounds' batch'.
Proof.
  revert batch. induction rounds as [|r rounds IH]; intros batch; simpl.
  - by intros [= <-].
  - destruct r as [| |q]; [done..|].
    destruct (TxBatchSize c - Z.of_nat (length batch) =? 0); [done|].
    destruct (ReceiveMany _ q) as [[[msgIDs txReqs] [err|]] q']; [apply IH|].
    destruct (appendReceived _ _ _ _ _); [apply IH|done].
Qed.

(** The loop returns once a round takes the timer's or the context's channel. *)
Lemma retrieveLoop_returns c rounds batch :
  (Z.of_nat (length batch) ≤ TxBatchSize c) →
  CtxDone ∈ rounds ∨ TimerC ∈ rounds →
  ∃ batch' how, retrieveLoop ReceiveMany c rounds batch = Return batch' how.
Proof.
  revert batch. induction rounds as [|r rounds IH]; intros batch Hlen Hin.
  - destruct Hin as [Hin|Hin]; by apply elem_of_nil in Hin.
  - pose proof (retrieveLoop_bounded c (r :: rounds) batch Hlen) as Hb.
    destruct (retrieveLoop ReceiveMany c (r :: rounds) batch) as [b how| |b] eqn:Hloop;
      [eauto|done|].
    exfalso. revert Hloop. simpl. destruct r as [| |q]; [done..|].
    destruct (TxBatchSize c - Z.of_nat (length batch) =? 0) eqn:Hfull; [done|].
    assert (CtxDone ∈ rounds ∨ TimerC ∈ rounds) as Hin'.
    { destruct Hin as [Hin|Hin]; apply elem_of_cons in Hin as [?|?]; try done; eauto. }
    destruct (ReceiveMany_bounded (I32.of_int (TxBatchSize c - Z.of_nat (length batch))) q)
      as [Hmost Hids].
    apply Z.eqb_neq in Hfull.
    destruct (ReceiveMany _ q) as [[[msgIDs txReqs] [err|]] q']; simpl in *.
    + destruct (IH batch Hlen Hin') as (b' & how & ->). done.
    + destruct (appendReceived (UseQueueMessageID c) msgIDs 0 txReqs batch) as [b1|] eqn:Happ;
        [|done].
      apply appendReceived_length in Happ.
      pose proof (I32_of_int_le (TxBatchSize c - Z.of_nat (length batch)) ltac:(lia)).
      destruct (IH b1 ltac:(lia) Hin') as (b' & how & ->). done.
Qed.

End batch_claims.

Lemma mem_ReceiveMany_bounded : QueueSpec.receives_at_most QueueSpec.mem_ReceiveMany.
Proof.
  intros max q. unfold QueueSpec.mem_ReceiveMany. simpl.
  rewrite !length_fmap, length_take. split; lia.
Qed.

(** ** The transactor: firing a batch *)

Section fire_claims.

Import types transactor.

Context {Queue : Type}.
Variable BuildTransactionFromRequests :
  list CallMsg → tracker.Noncer → (option coretypes.Transaction * option error) * tracker.Noncer.
Variable SendTransaction :
  option coretypes.Transaction → tracker.Noncer → option error * tracker.Noncer.
Variable ResponseStatus : Response → Status.

(** The spec's "Build / sign / fatal submit: response.Error populated,
    status Error": what [fire] relies on of [Response.Status]. *)
Hypothesis Status_of_error : ∀ r, Error r ≠ None → ResponseStatus r = StatusError.

Local Abbreviation fire' := (fire BuildTransactionFromRequests SendTransaction ResponseStatus).

(** C5 (amended).  Whenever building or sending returns an error, [fire]
    leaves the response with that error (and the transaction the factory
    returned), its status is [Error], the dispatcher gets this response and
    gets it once, and the tracker gets nothing.  [fire] itself makes no
    call on the Noncer: the Noncer is left exactly as the factory and the
    sender left it, and nothing is released from it. *)
Theorem fire_reports_build_and_send_errors
    (resp : Response) (msgs : list CallMsg) (t : TxrV2 (Queue := Queue)) :
  (∀ tx err n1,
     BuildTransactionFromRequests msgs (noncer t) = ((tx, Some err), n1) →
     let out := fire' resp true msgs t in
     Error (fst out) = Some err ∧ Transaction (fst out) = tx ∧
     MsgIDs (fst out) = MsgIDs resp ∧
     ResponseStatus (fst out) = StatusError ∧
     dispatched (snd out) = dispatched t ++ [fst out] ∧
     tracked (snd out) = tracked t ∧
     noncer (snd out) = n1) ∧
  (∀ tx n1 err n2,
     BuildTransactionFromRequests msgs (noncer t) = ((tx, None), n1) →
     SendTransaction tx n1 = (Some err, n2) →
     let out := fire' resp true msgs t in
     Error (fst out) = Some err ∧ Transaction (fst out) = tx ∧
     MsgIDs (fst out) = MsgIDs resp ∧
     ResponseStatus (fst out) = StatusError ∧
     dispatched (snd out) = dispatched t ++ [fst out] ∧
     tracked (snd out) = tracked t ∧
     noncer (snd out) = n2) ∧
  (∀ err n2,
     SendTransaction (Transaction resp) (noncer t) = (Some err, n2) →
     let out := fire' resp false msgs t in
     Error (fst out) = Some err ∧ Transaction (fst out) = Transaction resp ∧
     MsgIDs (fst out) = MsgIDs resp ∧
     ResponseStatus (fst out) = StatusError ∧
     dispatched (snd out) = dispatched t ++ [fst out] ∧
     tracked (snd out) = tracked t ∧
     noncer (snd out) = n2).
Proof.
  split; [|split].
  - intros tx err n1 Hbuild. unfold fire, fireBody. simpl. rewrite Hbuild. simpl.
    rewrite Status_of_error by done. simpl.
    repeat split; try reflexivity. by apply Status_of_error.
  - intros tx n1 err n2 Hbuild Hsend. unfold fire, fireBody. simpl.
    rewrite Hbuild. simpl. rewrite Hsend. simpl.
    rewrite Status_of_error by done. simpl.
    repeat split; try reflexivity. by apply Status_of_error.
  - intros err n2 Hsend. unfold fire, fireBody. simpl. rewrite Hsend. simpl.
    rewrite Status_of_error by done. simpl.
    repeat split; try reflexivity. by apply Status_of_error.
Qed.

End fire_claims.

Lemma status_of_error r :
  transactor.Error r ≠ None → FireExamples.status_of r = transactor.StatusError.
Proof. unfold FireExamples.status_of. by destruct (transactor.Error r). Qed.

Lemma fire_reports_build_and_send_errors_witness :
  transactor.Error (fst FireExamples.fired)
    = Some (GoErr.ErrNew "signer: key unavailable") ∧
  transactor.Transaction (fst FireExamples.fired) = None ∧
  transactor.MsgIDs (fst FireExamples.fired) = ["r1"] ∧
  FireExamples.status_of (fst FireExamples.fired) = transactor.StatusError ∧
  transactor.dispatched (snd FireExamples.fired) = [fst FireExamples.fired] ∧
  transactor.tracked (snd FireExamples.fired) = [] ∧
  transactor.noncer (snd FireExamples.fired)
    = tracker.with_acquired 7 tracker.NewNoncer.
Proof.
  exact (proj1 (fire_reports_build_and_send_errors
                  (FireExamples.signing_fails 7) FireExamples.no_send
                  FireExamples.status_of status_of_error
                  FireExamples.resp_r1 [FireExamples.call_r1] FireExamples.idle)
           None (GoErr.ErrNew "signer: key unavailable")
           (tracker.with_acquired 7 tracker.NewNoncer) eq_refl).
Defined.

(** C5 (as stated) fails in its last part: after a [fire] whose build
    failed at signing, the nonce 7 the factory had acquired is still held
    in [acquired]; it has not been released. *)
Lemma fire_leaves_nonce_acquired :
  transactor.Error (fst FireExamples.fired) ≠ None ∧
  FireExamples.status_of (fst FireExamples.fired) = transactor.StatusError ∧
  tracker.acquired (transactor.noncer (snd FireExamples.fired)) !! 7 = Some 7 ∧
  ¬ NoncerSpec.released 7 (transactor.noncer (snd FireExamples.fired)).
Proof.
  split; [vm_compute; discriminate|]. split; [vm_compute; reflexivity|].
  split; [vm_compute; reflexivity|].
  intros [Hacq _]. vm_compute in Hacq. discriminate.
Qed.

(* ===================================================================== *)
(** * Part IV: further properties of the code                             *)
(* ===================================================================== *)

(** ** The Noncer's lists: filing, looking up, removing, counting *)

Section noncer_lists.

Import tracker NoncerSpec.

Implicit Types (n : Noncer) (tx : InFlightTx).

Lemma InFlight_false nonce n : InFlight nonce n = false ↔ inFlight n !! nonce = None.
Proof.
  unfold InFlight, GetInFlight, skiplist.Get. rewrite bool_decide_eq_false.
  rewrite <-eq_None_not_Some. done.
Qed.

Lemma InFlight_true nonce n : InFlight nonce n = true ↔ is_Some (inFlight n !! nonce).
Proof. unfold InFlight, GetInFlight, skiplist.Get. apply bool_decide_eq_true. Qed.

(** X1.  A transaction filed with [SetInFlight] is what [GetInFlight]
    returns for its nonce, [InFlight] holds of that nonce and the nonce
    has left [acquired]; what is filed or acquired under any other nonce
    stays; and a second transaction filed under the same nonce takes the
    place of the first. *)
Theorem SetInFlight_then_GetInFlight (tx : InFlightTx) (n : Noncer) :
  GetInFlight (Nonce tx) (SetInFlight tx n) = Some tx ∧
  InFlight (Nonce tx) (SetInFlight tx n) = true ∧
  acquired (SetInFlight tx n) !! Nonce tx = None ∧
  (∀ nonce, nonce ≠ Nonce tx →
     GetInFlight nonce (SetInFlight tx n) = GetInFlight nonce n ∧
     InFlight nonce (SetInFlight tx n) = InFlight nonce n ∧
     acquired (SetInFlight tx n) !! nonce = acquired n !! nonce) ∧
  (∀ tx', Nonce tx' = Nonce tx →
     GetInFlight (Nonce tx) (SetInFlight tx' (SetInFlight tx n)) = Some tx' ∧
     inFlight (SetInFlight tx' (SetInFlight tx n)) = inFlight (SetInFlight tx' n)).
Proof.
  unfold GetInFlight, SetInFlight, skiplist.Get, skiplist.SetKV, skiplist.Remove.
  split; [apply lookup_insert_eq|]. split.
  { apply InFlight_true. simpl. rewrite lookup_insert_eq. eauto. }
  split; [apply lookup_delete_eq|]. split.
  - intros nonce Hne. simpl. split; [by rewrite lookup_insert_ne|].
    split; [|by rewrite lookup_delete_ne].
    unfold InFlight, GetInFlight, skiplist.Get. simpl. by rewrite lookup_insert_ne.
  - intros tx' Hsame. simpl. rewrite Hsame.
    split; [apply lookup_insert_eq|apply insert_insert_eq].
Qed.

(** X2.  After [RemoveInFlight] the transaction's nonce is not in flight
    and those under other nonces are; removing a nonce that is not in
    flight changes nothing; [acquired] is never touched; and removing what
    was just filed under a free nonce gives back the in-flight list as it
    was. *)
Theorem RemoveInFlight_forgets_the_nonce (tx : InFlightTx) (n : Noncer) :
  InFlight (Nonce tx) (RemoveInFlight tx n) = false ∧
  GetInFlight (Nonce tx) (RemoveInFlight tx n) = None ∧
  (∀ nonce, nonce ≠ Nonce tx →
     GetInFlight nonce (RemoveInFlight tx n) = GetInFlight nonce n) ∧
  acquired (RemoveInFlight tx n) = acquired n ∧
  (InFlight (Nonce tx) n = false →
     RemoveInFlight tx n = n ∧
     inFlight (RemoveInFlight tx (SetInFlight tx n)) = inFlight n).
Proof.
  split; [apply InFlight_false; simpl; apply lookup_delete_eq|].
  split; [apply lookup_delete_eq|].
  split; [intros nonce Hne; by apply lookup_delete_ne|].
  split; [done|].
  intros Hfree%InFlight_false. split.
  - destruct n as [a f l]. unfold RemoveInFlight, skiplist.Remove. simpl in *.
    by rewrite delete_id.
  - simpl. unfold skiplist.Remove, skiplist.SetKV. rewrite delete_insert_eq.
    by apply delete_id.
Qed.

(** X3.  What each operation does to the two counts of [Stats].
    [SetInFlight] takes one off the acquired count if the nonce was
    acquired and adds one to the in-flight count unless the nonce was in
    flight already; [RemoveInFlight] takes one off the in-flight count if
    the nonce was in flight; a successful [Acquire] adds one to the
    acquired count unless the nonce was acquired already. *)
Theorem Stats_accounting (tx : InFlightTx) (n : Noncer) :
  Stats (SetInFlight tx n) =
    ((fst (Stats n) - (match acquired n !! Nonce tx with Some _ => 1 | None => 0 end))%nat,
     (snd (Stats n) + (if InFlight (Nonce tx) n then 0 else 1))%nat) ∧
  Stats (RemoveInFlight tx n) =
    (fst (Stats n), (snd (Stats n) - (if InFlight (Nonce tx) n then 1 else 0))%nat) ∧
  (∀ fuel pending nonce n',
     Acquire fuel pending n = Some ((nonce, None), n') →
     Stats n' = ((fst (Stats n) + (match acquired n !! nonce with Some _ => 0 | None => 1 end))%nat,
                 snd (Stats n))) ∧
  (∀ fuel pending nonce err n',
     Acquire fuel pending n = Some ((nonce, Some err), n') → Stats n' = Stats n).
Proof.
  unfold Stats, skiplist.Len. split; [|split; [|split]].
  - simpl. unfold skiplist.Remove, skiplist.SetKV.
    rewrite map_size_delete, map_size_insert.
    destruct (InFlight (Nonce tx) n) eqn:Hin.
    + apply InFlight_true in Hin as [old ->].
      destruct (acquired n !! Nonce tx); simpl; f_equal; lia.
    + apply InFlight_false in Hin. rewrite Hin.
      destruct (acquired n !! Nonce tx); simpl; f_equal; lia.
  - simpl. unfold skiplist.Remove. rewrite map_size_delete.
    destruct (InFlight (Nonce tx) n) eqn:Hin.
    + apply InFlight_true in Hin as [old ->]. simpl. f_equal. lia.
    + apply InFlight_false in Hin. rewrite Hin. simpl. f_equal. lia.
  - intros fuel pending nonce n' HA.
    apply Acquire_state in HA as [(err & Herr & _)|[_ ->]]; [done|].
    simpl. unfold skiplist.SetKV. rewrite map_size_insert.
    destruct (acquired n !! nonce); simpl; f_equal; lia.
  - intros fuel pending nonce err n' HA.
    apply Acquire_state in HA as [(err' & _ & ->)|[Hnone _]]; done.
Qed.

End noncer_lists.

(** ** The Noncer: what [Acquire] hands out *)

Section noncer_allocation.

Import tracker NoncerSpec NoncerUse NoncerExamples.

Implicit Types (n : Noncer) (tx : InFlightTx) (cs : list call).

Lemma count_calls_cons which c cs :
  count_calls which (c :: cs) = ((if which c then 1 else 0) + count_calls which cs)%nat.
Proof.
  unfold count_calls. rewrite filter_cons.
  destruct (decide (which c = true)) as [->|Hno]; [done|].
  by destruct (which c).
Qed.

Lemma run_counts cs n n' :
  run cs n = Some n' →
  (size (acquired n') ≤ size (acquired n) + count_calls is_Acquire cs)%nat ∧
  (size (inFlight n') ≤ size (inFlight n) + count_calls is_SetInFlight cs)%nat.
Proof.
  revert n. induction cs as [|c cs IH]; intros n; simpl.
  - intros [= <-]. unfold count_calls. simpl. lia.
  - destruct (exec c n) as [n1|] eqn:Hexec; [|done]. intros Hrun.
    destruct (IH _ Hrun) as [Ha Hf]. rewrite !count_calls_cons.
    destruct c as [fuel pending|tx|tx|nonce]; simpl in *.
    + destruct (Acquire fuel pending n) as [[r n2]|] eqn:HA; [|done].
      injection Hexec as <-.
      apply Acquire_state in HA as [(err & _ & ->)|[_ ->]]; [lia|].
      simpl in *. unfold skiplist.SetKV in *. rewrite map_size_insert in Ha.
      destruct (acquired n !! r.1); simpl in *; lia.
    + injection Hexec as <-. simpl in *. unfold skiplist.SetKV, skiplist.Remove in *.
      rewrite map_size_delete in Ha. rewrite map_size_insert in Hf.
      destruct (acquired n !! Nonce tx), (inFlight n !! Nonce tx); simpl in *; lia.
    + injection Hexec as <-. simpl in *. unfold skiplist.Remove in *.
      rewrite map_size_delete in Hf.
      destruct (inFlight n !! Nonce tx); simpl in *; lia.
    + injection Hexec as <-. simpl in *. lia.
Qed.

(** X4.  However a new Noncer is used, [Stats] never reports more
    acquired nonces than [Acquire] was called, nor more transactions in
    flight than [SetInFlight] was called. *)
Theorem Stats_bounded_by_calls (cs : list call) (n : Noncer) :
  run cs NewNoncer = Some n →
  (fst (Stats n) ≤ count_calls is_Acquire cs)%nat ∧
  (snd (Stats n) ≤ count_calls is_SetInFlight cs)%nat.
Proof.
  intros Hrun. destruct (run_counts cs _ _ Hrun) as [Ha Hf].
  unfold Stats, skiplist.Len. simpl in *.
  rewrite map_size_empty in Ha. rewrite map_size_empty in Hf. lia.
Qed.

Lemma Stats_bounded_by_calls_witness :
  ∃ n, run calls_mixed NewNoncer = Some n ∧
       (fst (Stats n) ≤ 3)%nat ∧ (snd (Stats n) ≤ 2)%nat.
Proof.
  destruct (run calls_mixed NewNoncer) as [n|] eqn:Hrun; [|vm_compute in Hrun; discriminate].
  exists n. split; [reflexivity|].
  exact (Stats_bounded_by_calls calls_mixed n Hrun).
Defined.

(** X5.  In any state a Noncer can reach, a nonce [Acquire] returns
    without an error is not in flight; the call records it in [acquired]
    and leaves [inFlight] and [latestConfirmedNonce] as they were. *)
Theorem Acquire_hands_out_free_nonce
    (n : Noncer) (fuel : nat) (pending : Z * option error) (nonce : Z) (n' : Noncer) :
  reachable n →
  Acquire fuel pending n = Some ((nonce, None), n') →
  InFlight nonce n = false ∧ GetInFlight nonce n = None ∧
  acquired n' !! nonce = Some nonce ∧
  inFlight n' = inFlight n ∧
  latestConfirmedNonce n' = latestConfirmedNonce n.
Proof.
  intros Hwf%reachable_wf HA.
  pose proof (Acquire_not_inFlight _ _ _ _ _ Hwf HA) as Hfree.
  apply Acquire_state in HA as [(err & Herr & _)|[_ ->]]; [done|].
  split; [by apply InFlight_false|]. split; [done|].
  split; [apply lookup_insert_eq|done].
Qed.

Lemma Acquire_hands_out_free_nonce_witness :
  InFlight 2 holed = false ∧ GetInFlight 2 holed = None ∧
  acquired (with_acquired 2 holed) !! 2 = Some 2 ∧
  inFlight (with_acquired 2 holed) = inFlight holed ∧
  latestConfirmedNonce (with_acquired 2 holed) = latestConfirmedNonce holed.
Proof.
  apply (Acquire_hands_out_free_nonce holed 8 (0, None) 2 (with_acquired 2 holed)).
  - exists calls_holed. split; [by_computation|reflexivity].
  - vm_compute. reflexivity.
Defined.

(** X6.  [Acquire] asks the chain only when nothing is in flight: with a
    transaction in flight its result does not depend on the chain's
    answer; an error it returns is the chain's, comes with the nonce 0 and
    an untouched Noncer, and nothing is in flight then; and with nothing
    in flight it returns at once, there being no scan. *)
Theorem Acquire_asks_chain_only_when_idle (n : Noncer) (fuel : nat) :
  (inFlight n ≠ ∅ →
     ∀ pending pending', Acquire fuel pending n = Acquire fuel pending' n) ∧
  (∀ pending nonce err n',
     Acquire fuel pending n = Some ((nonce, Some err), n') →
     inFlight n = ∅ ∧ snd pending = Some err ∧ nonce = 0 ∧ n' = n) ∧
  (inFlight n = ∅ → ∀ pending, Acquire fuel pending n = Acquire 0 pending n ∧
                                is_Some (Acquire 0 pending n)).
Proof.
  unfold Acquire. destruct (skiplist.Back (inFlight n)) as [[k val]|] eqn:HB.
  - assert (inFlight n ≠ ∅) as Hne.
    { intros Hempty%Back_None. congruence. }
    split; [done|]. split; [|done].
    intros pending nonce err n'. by destruct (gapLoop _ _ _ _).
  - apply Back_None in HB. split; [done|]. split.
    + intros [p [e|]] nonce err n'; intros [= <- <- <-]; done.
    + intros _ [p [e|]]; eauto.
Qed.

(** X7.  Once the nonce [Acquire] returned has been put in flight, the next
    [Acquire] returns another nonce. *)
Theorem Acquire_after_SetInFlight_differs
    (n : Noncer) (fuel : nat) (pending : Z * option error) (nonce : Z) (n1 : Noncer)
    (tx : InFlightTx) (fuel' : nat) (pending' : Z * option error) (nonce' : Z) (n2 : Noncer) :
  wf n →
  Acquire fuel pending n = Some ((nonce, None), n1) →
  Nonce tx = nonce → U64.in_range nonce →
  Acquire fuel' pending' (SetInFlight tx n1) = Some ((nonce', None), n2) →
  nonce' ≠ nonce.
Proof.
  intros Hwf HA Htx Hrange HA' ->.
  assert (wf n1) as Hwf1.
  { apply Acquire_state in HA as [(err & Herr & _)|[_ ->]]; [done|]. exact Hwf. }
  assert (wf (SetInFlight tx n1)) as Hwf2.
  { apply (wf_exec (CallSetInFlight tx) n1); [|done..]. simpl. by rewrite Htx. }
  pose proof (Acquire_not_inFlight _ _ _ _ _ Hwf2 HA') as Hfree.
  simpl in Hfree. unfold skiplist.SetKV in Hfree.
  rewrite <-Htx, lookup_insert_eq in Hfree. done.
Qed.

Lemma Acquire_after_SetInFlight_differs_witness :
  Acquire 3 (0, None) one_in_flight = Some ((1, None), with_acquired 1 one_in_flight) ∧
  Acquire 3 (0, None) (SetInFlight (tx_with_nonce 1) (with_acquired 1 one_in_flight))
    = Some ((2, None),
            with_acquired 2 (SetInFlight (tx_with_nonce 1) (with_acquired 1 one_in_flight))) ∧
  2 ≠ 1.
Proof.
  split; [vm_compute; reflexivity|]. split; [vm_compute; reflexivity|].
  apply (Acquire_after_SetInFlight_differs one_in_flight 3 (0, None) 1
           (with_acquired 1 one_in_flight) (tx_with_nonce 1) 3 (0, None) 2
           (with_acquired 2 (SetInFlight (tx_with_nonce 1) (with_acquired 1 one_in_flight)))).
  - by_computation.
  - vm_compute. reflexivity.
  - reflexivity.
  - by_computation.
  - vm_compute. reflexivity.
Defined.

(** The result of [Acquire] where the scan can run to its end. *)
Lemma Acquire_scans n hi fuel pending :
  wf n → is_max_key (inFlight n) hi → hi < U64.max →
  enough_fuel (latestConfirmedNonce n) hi fuel →
  ∃ nonce,
    Acquire fuel pending n = Some ((nonce, None), with_acquired nonce n) ∧
    (is_first_gap (inFlight n) (latestConfirmedNonce n) hi nonce ∨
     (no_gap (inFlight n) (latestConfirmedNonce n) hi ∧ nonce = hi + 1)).
Proof.
  intros Hwf Hmax Hhi Hfuel.
  destruct (Back_of_max _ _ Hmax) as (val & HB & Hval).
  destruct (wf_lookup _ _ _ Hwf Hval) as [Hnonce Hrange].
  unfold Acquire. rewrite HB, Hnonce.
  destruct (gapLoop_scan fuel (inFlight n) hi (latestConfirmedNonce n))
    as [(g & -> & Hgap)|[-> Hfull]]; [apply Hwf|done..| |].
  - exists g. eauto.
  - rewrite U64_add_1 by lia. exists (hi + 1). eauto.
Qed.

(** X10.  When the confirmed nonce is past everything in flight the scan
    does not run at all: [Acquire] returns [max(inFlight) + 1] after one
    test of the loop condition, whatever is missing below, and that nonce
    is not above [latestConfirmedNonce]; it is below it when the confirmed
    nonce is more than one ahead. *)
Theorem Acquire_skips_scan_when_confirmed_is_ahead
    (n : Noncer) (hi : Z) (fuel : nat) (pending : Z * option error) :
  wf n → is_max_key (inFlight n) hi → hi < latestConfirmedNonce n →
  Acquire (S fuel) pending n = Some ((hi + 1, None), with_acquired (hi + 1) n) ∧
  hi + 1 ≤ latestConfirmedNonce n ∧
  (hi + 1 < latestConfirmedNonce n → InFlight (hi + 1) n = false).
Proof.
  intros Hwf Hmax Hahead.
  destruct (Back_of_max _ _ Hmax) as (val & HB & Hval).
  destruct (wf_lookup _ _ _ Hwf Hval) as [Hnonce Hrange].
  destruct Hwf as [_ Hlatest].
  split; [|split; [lia|]].
  - unfold Acquire. rewrite HB, Hnonce. simpl.
    destruct (Z.leb_spec (latestConfirmedNonce n) hi) as [?|_]; [lia|].
    rewrite U64_add_1 by lia. done.
  - intros _. apply InFlight_false.
    destruct (inFlight n !! (hi + 1)) eqn:Hnext; [|done].
    destruct Hmax as [_ Hle]. specialize (Hle (hi + 1) (mk_is_Some _ _ Hnext)). lia.
Qed.

Lemma Acquire_skips_scan_when_confirmed_is_ahead_witness :
  Acquire 1 (0, None) (setLatestConfirmed 9 holed)
    = Some ((3 + 1, None), with_acquired (3 + 1) (setLatestConfirmed 9 holed)) ∧
  3 + 1 ≤ latestConfirmedNonce (setLatestConfirmed 9 holed) ∧
  (3 + 1 < latestConfirmedNonce (setLatestConfirmed 9 holed) →
   InFlight (3 + 1) (setLatestConfirmed 9 holed) = false).
Proof.
  apply (Acquire_skips_scan_when_confirmed_is_ahead (setLatestConfirmed 9 holed) 3 0 (0, None)).
  - by_computation.
  - apply (is_max_key_of_Back _ 3 (tx_with_nonce 3)). vm_compute. reflexivity.
  - by_computation.
Defined.

(** X22.  In any state a Noncer can reach, the transaction [GetInFlight]
    returns for a nonce is one sent under that nonce, and the nonce is a
    [uint64]; and [Acquire], [SetInFlight] and [RemoveInFlight] keep it so. *)
Theorem GetInFlight_returns_tx_of_that_nonce (n : Noncer) (nonce : Z) (tx : InFlightTx) :
  reachable n →
  GetInFlight nonce n = Some tx →
  Nonce tx = nonce ∧ U64.in_range nonce ∧ InFlight nonce n = true.
Proof.
  intros Hwf%reachable_wf Hget. unfold GetInFlight, skiplist.Get in Hget.
  destruct (wf_lookup _ _ _ Hwf Hget) as [Hnonce Hrange].
  split; [done|]. split; [done|]. apply InFlight_true. eauto.
Qed.

Lemma GetInFlight_returns_tx_of_that_nonce_witness :
  GetInFlight 3 holed = Some (tx_with_nonce 3) ∧
  Nonce (tx_with_nonce 3) = 3 ∧ U64.in_range 3 ∧ InFlight 3 holed = true.
Proof.
  split; [vm_compute; reflexivity|].
  apply (GetInFlight_returns_tx_of_that_nonce holed 3 (tx_with_nonce 3)).
  - exists calls_holed. split; [by_computation|reflexivity].
  - vm_compute. reflexivity.
Defined.

Lemma is_first_gap_unique {V : Type} (fl : gmap Z V) lo hi g g' :
  is_first_gap fl lo hi g → is_first_gap fl lo hi g' → g = g'.
Proof.
  intros (Hr & Habs & Hbelow) (Hr' & Habs' & Hbelow').
  destruct (Z.lt_trichotomy g g') as [Hlt|[?|Hgt]]; [|done|].
  - destruct (Hbelow' g ltac:(lia)) as [? ?]. congruence.
  - destruct (Hbelow g' ltac:(lia)) as [? ?]. congruence.
Qed.

(** X9.  A nonce taken out of flight is handed out again.  In a state
    without gaps, after [RemoveInFlight] of a transaction whose nonce lies
    in [[latestConfirmedNonce, max(inFlight))], the next [Acquire] returns
    that very nonce. *)
Theorem Acquire_refills_removed_nonce
    (n : Noncer) (hi : Z) (tx : InFlightTx) (fuel : nat) (pending : Z * option error) :
  wf n → is_max_key (inFlight n) hi →
  no_gap (inFlight n) (latestConfirmedNonce n) hi →
  latestConfirmedNonce n ≤ Nonce tx < hi →
  enough_fuel (latestConfirmedNonce n) hi fuel →
  Acquire fuel pending (RemoveInFlight tx n)
    = Some ((Nonce tx, None), with_acquired (Nonce tx) (RemoveInFlight tx n)).
Proof.
  intros Hwf Hmax Hfull Htx Hfuel.
  assert (wf (RemoveInFlight tx n)) as Hwf'.
  { destruct Hwf as [Hkeys Hlatest]. split; [|done]. simpl.
    unfold skiplist.Remove. by apply map_Forall_delete. }
  assert (is_max_key (inFlight (RemoveInFlight tx n)) hi) as Hmax'.
  { destruct Hmax as [Hin Hle]. simpl. unfold skiplist.Remove. split.
    - rewrite lookup_delete_ne by lia. done.
    - intros k [v Hk]. apply lookup_delete_Some in Hk as [_ Hk]. eauto. }
  apply (Acquire_returns_first_gap (RemoveInFlight tx n) hi); [done..|].
  simpl. unfold skiplist.Remove. split; [lia|]. split; [apply lookup_delete_eq|].
  intros m Hm. rewrite lookup_delete_ne by lia. apply Hfull. lia.
Qed.

Lemma Acquire_refills_removed_nonce_witness :
  Acquire 8 (0, None) (RemoveInFlight (tx_with_nonce 1) (SetInFlight (tx_with_nonce 2) holed))
  = Some ((Nonce (tx_with_nonce 1), None),
          with_acquired (Nonce (tx_with_nonce 1))
            (RemoveInFlight (tx_with_nonce 1) (SetInFlight (tx_with_nonce 2) holed))).
Proof.
  apply (Acquire_refills_removed_nonce (SetInFlight (tx_with_nonce 2) holed) 3).
  - by_computation.
  - apply (is_max_key_of_Back _ 3 (tx_with_nonce 3)). vm_compute. reflexivity.
  - intros m Hm. simpl in Hm.
    assert (m = 0 ∨ m = 1 ∨ m = 2 ∨ m = 3) as [-> | [-> | [-> | ->]]] by lia;
      eexists; vm_compute; reflexivity.
  - by_computation.
  - unfold enough_fuel. simpl. lia.
Defined.

Lemma enough_fuel_mono lo hi hi' fuel :
  hi ≤ hi' → enough_fuel lo hi' fuel → enough_fuel lo hi fuel.
Proof. unfold enough_fuel. lia. Qed.

Lemma acquire_and_submit_steps k :
  ∀ n hi fuel mk,
    wf n → is_max_key (inFlight n) hi →
    no_gap (inFlight n) (latestConfirmedNonce n) hi →
    hi + Z.of_nat k < U64.max →
    (∀ nonce, Nonce (mk nonce) = nonce) →
    enough_fuel (latestConfirmedNonce n) (hi + Z.of_nat k) fuel →
    ∃ n', acquire_and_submit k fuel mk n = Some (seqZ (hi + 1) (Z.of_nat k), n') ∧
          wf n' ∧ is_max_key (inFlight n') (hi + Z.of_nat k) ∧
          no_gap (inFlight n') (latestConfirmedNonce n') (hi + Z.of_nat k).
Proof.
  induction k as [|k IH]; intros n hi fuel mk Hwf Hmax Hfull Hhi Hmk Hfuel.
  - exists n. simpl. rewrite Z.add_0_r. done.
  - destruct (wf_lookup n hi) with (tx := default (mk hi) (inFlight n !! hi)) as [_ Hrange];
      [done|by destruct Hmax as [[v ->] _]|].
    destruct (Acquire_scans n hi fuel (0, None) Hwf Hmax ltac:(lia)
                ltac:(eapply enough_fuel_mono; [|done]; lia))
      as (nonce & HA & [(Hr & Habs & _)|[_ ->]]).
    { exfalso. destruct (Hfull nonce Hr) as [v Hv]. congruence. }
    set (n1 := SetInFlight (mk (hi + 1)) (with_acquired (hi + 1) n)).
    assert (wf n1) as Hwf1.
    { destruct Hwf as [Hkeys Hlatest]. split; [|done]. simpl. rewrite Hmk.
      unfold skiplist.SetKV. apply map_Forall_insert_2; [|done].
      split; [apply Hmk|lia]. }
    assert (is_max_key (inFlight n1) (hi + 1)) as Hmax1.
    { simpl. rewrite Hmk. unfold skiplist.SetKV. split.
      - rewrite lookup_insert_eq. eauto.
      - intros j [v Hj]. apply lookup_insert_Some in Hj as [[<- _]|[_ Hj]]; [lia|].
        destruct Hmax as [_ Hle]. specialize (Hle j (mk_is_Some _ _ Hj)). lia. }
    assert (no_gap (inFlight n1) (latestConfirmedNonce n1) (hi + 1)) as Hfull1.
    { simpl. rewrite Hmk. unfold skiplist.SetKV. intros m Hm.
      destruct (decide (m = hi + 1)) as [->|Hne].
      - rewrite lookup_insert_eq. eauto.
      - rewrite lookup_insert_ne by done. apply Hfull. lia. }
    destruct (IH n1 (hi + 1) fuel mk Hwf1 Hmax1 Hfull1 ltac:(lia) Hmk
                ltac:(simpl; eapply enough_fuel_mono; [|done]; lia))
      as (n' & Hrest & Hwf' & Hmax' & Hfull').
    exists n'. cbn [acquire_and_submit]. rewrite HA. fold n1. rewrite Hrest.
    replace (hi + Z.of_nat (S k)) with (hi + 1 + Z.of_nat k) by lia.
    split; [|done]. rewrite (seqZ_cons (hi + 1) (Z.of_nat (S k))) by lia.
    do 3 f_equal. f_equal; lia.
Qed.

(** X8.  From a state without gaps, acquiring a nonce and putting the
    transaction sent under it in flight, [k] times over, hands out the [k]
    nonces after [max(inFlight)], in order, and leaves a state without
    gaps whose largest nonce in flight is [max(inFlight) + k]. *)
Theorem acquire_and_submit_counts_up
    (k : nat) (n : Noncer) (hi : Z) (fuel : nat) (mk : Z → InFlightTx) :
  wf n → is_max_key (inFlight n) hi →
  no_gap (inFlight n) (latestConfirmedNonce n) hi →
  hi + Z.of_nat k < U64.max →
  (∀ nonce, Nonce (mk nonce) = nonce) →
  enough_fuel (latestConfirmedNonce n) (hi + Z.of_nat k) fuel →
  ∃ n', acquire_and_submit k fuel mk n = Some (seqZ (hi + 1) (Z.of_nat k), n') ∧
        is_max_key (inFlight n') (hi + Z.of_nat k) ∧
        no_gap (inFlight n') (latestConfirmedNonce n') (hi + Z.of_nat k).
Proof.
  intros Hwf Hmax Hfull Hhi Hmk Hfuel.
  destruct (acquire_and_submit_steps k n hi fuel mk Hwf Hmax Hfull Hhi Hmk Hfuel)
    as (n' & Hrun & _ & Hmax' & Hfull').
  eauto.
Qed.

Lemma acquire_and_submit_counts_up_witness :
  ∃ n', acquire_and_submit 3 8 tx_with_nonce one_in_flight = Some ([1; 2; 3], n') ∧
        is_max_key (inFlight n') 3 ∧
        no_gap (inFlight n') (latestConfirmedNonce n') 3.
Proof.
  apply (acquire_and_submit_counts_up 3 one_in_flight 0 8 tx_with_nonce).
  - by_computation.
  - apply (is_max_key_of_Back _ 0 (tx_with_nonce 0)). vm_compute. reflexivity.
  - intros m Hm. simpl in Hm. assert (m = 0) as -> by lia.
    eexists. vm_compute. reflexivity.
  - by_computation.
  - reflexivity.
  - unfold enough_fuel. simpl. lia.
Defined.

End noncer_allocation.

(** ** The refresh loop under cancellation *)

Section refresh_cancellation.

Import tracker refresh.

(** X11.  [RefreshLoop] ends when its context is cancelled.  Cancelled
    before the timer's 5 s are over, it returns without having read the
    chain and leaves the Noncer as it was; cancelled after them, it has
    read the chain once, at 5 s, keeping the nonce [NonceAt] answered also
    when the answer came with an error, and returns at the cancellation. *)
Theorem RefreshLoop_returns_on_cancel
    (fuel : nat) (NonceAt : Z → Z * option error) (prefer_done : nat → bool)
    (start c : Z) (n : Noncer) :
  (c < start + 5 * Second →
     RefreshLoop (S fuel) NonceAt (Some c) prefer_done start n =
     {| final := n; refreshed_at := []; ended := Returned |}) ∧
  (start + 5 * Second < c →
     RefreshLoop (S (S fuel)) NonceAt (Some c) prefer_done start n =
     {| final := setLatestConfirmed (fst (NonceAt (start + 5 * Second))) n;
        refreshed_at := [start + 5 * Second];
        ended := Returned |}) ∧
  ended (RefreshLoop (S (S fuel)) NonceAt (Some c) prefer_done start n) = Returned.
Proof.
  assert (0 < 5 * Second) as Hpos by (unfold Second; lia).
  unfold RefreshLoop, NewTimer. cbn [loop select drained fires_at fmap option_fmap option_map].
  rewrite (Z.max_r start (start + 5 * Second)) by lia.
  split; [|split].
  - intros Hc. destruct (Z.ltb_spec (Z.max start c) (start + 5 * Second)); [done|lia].
  - intros Hc. destruct (Z.ltb_spec (Z.max start c) (start + 5 * Second)); [lia|].
    destruct (Z.ltb_spec (start + 5 * Second) (Z.max start c)); [|lia].
    cbn [loop select drained fires_at fmap option_fmap option_map]. done.
  - destruct (Z.ltb_spec (Z.max start c) (start + 5 * Second)); [done|].
    destruct (Z.ltb_spec (start + 5 * Second) (Z.max start c)).
    + cbn [loop select drained fires_at fmap option_fmap option_map]. done.
    + destruct (prefer_done (S fuel)); [done|].
      cbn [loop select drained fires_at fmap option_fmap option_map]. done.
Qed.

End refresh_cancellation.

(** ** The replacement policy: the order of its steps *)

Section replacement_order.

Import GoErr sender.

Context {NF : Type} (GetNextNonce : Z → NF → (Z * bool) * NF).

(** X12.  [GetNew] applies [SetNonce] at most once and [BumpGas] at most
    once, the nonce before the gas, and nothing else: the helpers it
    applies are, in order, [SetNonce] with the factory's nonce if the error
    indicates "nonce too low", then [BumpGas] if the factory asked for it
    or the error indicates "replacement transaction underpriced". *)
Theorem GetNew_sets_nonce_before_bumping_gas
    (tx : coretypes.Transaction) (err : option error) (nf : NF) :
  let newNonce := fst (fst (GetNextNonce (coretypes.Nonce tx) nf)) in
  let shouldBumpGas := snd (fst (GetNextNonce (coretypes.Nonce tx) nf)) in
  snd (fst (GetNewTraced GetNextNonce (tx, []) err nf)) =
    (if indicates err NonceTooLow then [AppliedSetNonce newNonce] else []) ++
    (if (indicates err NonceTooLow && shouldBumpGas) || indicates err ReplaceUnderpriced
     then [AppliedBumpGas] else []).
Proof.
  unfold GetNewTraced, GetNew. simpl.
  destruct (GetNextNonce (coretypes.Nonce tx) nf) as [[newNonce shouldBumpGas] nf'].
  simpl.
  by destruct (indicates err NonceTooLow), (indicates err ReplaceUnderpriced), shouldBumpGas.
Qed.

End replacement_order.

(** ** baseapp: what [Start] and [Stop] do *)

Section baseapp_facts.

Import baseapp.

(** X13.  [Start] returns what the job manager's [Start] returned.  When
    that is an error, neither the producers nor the server are launched;
    the server is launched exactly when the job manager started and a
    server is registered.  On either path the last thing [Start] does is
    to log "BaseApp successfully started", the failure included.  [Stop]
    stops the job manager first and the server exactly when one is
    registered, whether or not [Start] had launched it. *)
Theorem Start_logs_success_on_every_path (jobMgrStart : option error) (b : BaseApp) :
  snd (Start jobMgrStart b) = jobMgrStart ∧
  last (fst (Start jobMgrStart b)) = Some (LogInfo "BaseApp successfully started") ∧
  (∃ rest, fst (Start jobMgrStart b) =
             LogInfo "Attempting to start BaseApp" :: JobMgrStart :: rest) ∧
  (GoRunProducers ∈ fst (Start jobMgrStart b) ↔ jobMgrStart = None) ∧
  (GoServerStart ∈ fst (Start jobMgrStart b) ↔ jobMgrStart = None ∧ is_Some (server b)) ∧
  (∀ err, jobMgrStart = Some err →
     fst (Start jobMgrStart b) =
       [LogInfo "Attempting to start BaseApp"; JobMgrStart;
        LogError "Failed to start job manager" err;
        LogInfo "BaseApp successfully started"]) ∧
  (ServerStop ∈ Stop b ↔ is_Some (server b)) ∧
  (∃ rest, Stop b = LogInfo "Attempting to stop BaseApp" :: JobMgrStop :: rest) ∧
  last (Stop b) = Some (LogInfo "BaseApp successfully stopped").
Proof.
  unfold Start, Stop.
  destruct jobMgrStart as [err|], (server b) as [port|]; simpl;
    repeat match goal with |- _ ∧ _ => split end;
    try done; eauto;
    rewrite ?elem_of_cons, ?elem_of_nil, <-?not_eq_None_Some; naive_solver.
Qed.

End baseapp_facts.

(** ** The transactor: marking states *)

Section marking.

Import types transactor.

Context {Queue : Type}.

Implicit Types (t : TxrV2 (Queue := Queue)) (m : gmap string PreconfirmedState).

Lemma lookup_foldl_insert m (state : PreconfirmedState) (msgIDs : list string) (k : string) :
  foldl (λ m msgID, <[msgID := state]> m) m msgIDs !! k =
  if decide (k ∈ msgIDs) then Some state else m !! k.
Proof.
  revert m. induction msgIDs as [|id ids IH]; intros m; cbn [foldl].
  - destruct (decide (k ∈ [])) as [Hin|]; [|done]. by apply elem_of_nil in Hin.
  - rewrite IH.
    destruct (decide (k ∈ ids)) as [Hin|Hnin], (decide (k ∈ id :: ids)) as [Hin'|Hnin'];
      try done.
    + exfalso. apply Hnin'. by apply list_elem_of_further.
    + apply elem_of_cons in Hin' as [->|?]; [|done]. apply lookup_insert_eq.
    + apply lookup_insert_ne. intros ->. apply Hnin', list_elem_of_here.
Qed.

Lemma GetPreconfirmedState_markState state msgIDs msgID t :
  GetPreconfirmedState msgID (markState state msgIDs t) =
  if decide (msgID ∈ msgIDs) then state else GetPreconfirmedState msgID t.
Proof.
  unfold GetPreconfirmedState, markState. simpl. rewrite lookup_foldl_insert.
  by destruct (decide (msgID ∈ msgIDs)).
Qed.

(** X14.  [markState] gives the state to every listed id and to no other;
    it changes nothing else of the transactor; and marking the same ids
    again overrides the earlier mark. *)
Theorem markState_marks_the_listed_ids
    (state : PreconfirmedState) (msgIDs : list string) (t : TxrV2 (Queue := Queue)) :
  (∀ msgID, GetPreconfirmedState msgID (markState state msgIDs t) =
            if decide (msgID ∈ msgIDs) then state else GetPreconfirmedState msgID t) ∧
  (∀ state', markState state' msgIDs (markState state msgIDs t) = markState state' msgIDs t) ∧
  markState state [] t = t ∧
  (requests (markState state msgIDs t) = requests t ∧
   noncer (markState state msgIDs t) = noncer t ∧
   dispatched (markState state msgIDs t) = dispatched t ∧
   tracked (markState state msgIDs t) = tracked t).
Proof.
  split; [intros msgID; apply GetPreconfirmedState_markState|].
  split; [|split; [by destruct t|done]].
  intros state'. apply TxrV2_eq; try reflexivity. simpl. apply map_eq. intros k.
  rewrite !lookup_foldl_insert. by destruct (decide (k ∈ msgIDs)).
Qed.

(** X15.  As the comment on [removeStateTracking] says, removing the
    tracking of ids reads like marking them [StateUnknown]:
    [GetPreconfirmedState] cannot tell the two apart, though the first
    drops the entries and the second keeps them; and removal undoes any
    mark on the same ids. *)
Theorem removeStateTracking_reads_as_unknown
    (msgIDs : list string) (t : TxrV2 (Queue := Queue)) :
  (∀ msgID, GetPreconfirmedState msgID (removeStateTracking msgIDs t) =
            GetPreconfirmedState msgID (markState StateUnknown msgIDs t)) ∧
  (∀ msgID, msgID ∈ msgIDs →
     preconfirmedStates (removeStateTracking msgIDs t) !! msgID = None ∧
     preconfirmedStates (markState StateUnknown msgIDs t) !! msgID = Some StateUnknown) ∧
  (∀ state, removeStateTracking msgIDs (markState state msgIDs t) =
            removeStateTracking msgIDs t).
Proof.
  split; [|split].
  - intros msgID. rewrite GetPreconfirmedState_markState.
    unfold GetPreconfirmedState, removeStateTracking. simpl.
    rewrite lookup_foldl_delete. by destruct (decide (msgID ∈ msgIDs)).
  - intros msgID Hin. unfold removeStateTracking, markState. simpl.
    rewrite lookup_foldl_delete, lookup_foldl_insert.
    by destruct (decide (msgID ∈ msgIDs)).
  - intros state. apply TxrV2_eq; try reflexivity. simpl. apply map_eq. intros k.
    rewrite !lookup_foldl_delete, lookup_foldl_insert.
    by destruct (decide (k ∈ msgIDs)).
Qed.

End marking.

(** ** The transactor: ingress when the push fails *)

Section ingress.

Import types transactor.

Context {Queue : Type}.
Variable Push : Request → Queue → (string * option error) * Queue.
Variable Validate : Request → option error.

(** X16.  [SendTxRequest] returns no error exactly when both the
    validation and the push succeed.  When the push fails it returns the
    queue's error with an empty id and marks nothing, the queue being
    whatever the failed push left.  Whatever happens, it touches neither
    the Noncer nor the dispatcher nor the tracker. *)
Theorem SendTxRequest_reports_failed_push (txReq : Request) (t : TxrV2 (Queue := Queue)) :
  let out := SendTxRequest Push Validate txReq t in
  (snd (fst out) = None ↔
     Validate txReq = None ∧ snd (fst (Push txReq (requests t))) = None) ∧
  (∀ queueID err q,
     Validate txReq = None → Push txReq (requests t) = ((queueID, Some err), q) →
     fst out = ("", Some err) ∧ requests (snd out) = q ∧
     preconfirmedStates (snd out) = preconfirmedStates t) ∧
  (snd (fst out) ≠ None →
     fst (fst out) = "" ∧ preconfirmedStates (snd out) = preconfirmedStates t) ∧
  (noncer (snd out) = noncer t ∧ dispatched (snd out) = dispatched t ∧
   tracked (snd out) = tracked t ∧ cfg (snd out) = cfg t).
Proof.
  unfold SendTxRequest. destruct (Validate txReq) as [verr|]; simpl.
  - split; [naive_solver|]. split; [done|]. split; done.
  - destruct (Push txReq (requests t)) as [[queueID [perr|]] q]; simpl.
    + split; [naive_solver|]. split; [by intros ? ? ? _ [= <- <- <-]|]. split; done.
    + split; [done|]. split; [by intros ? ? ? _ [=]|]. split; done.
Qed.

End ingress.

(** ** The transactor: what a batch is made of *)

Section batch_content.

Import types transactor QueueSpec.

Context {Queue : Type}.
Variable ReceiveMany : Z → Queue → (list string * list Request * option error) * Queue.

Implicit Types (c : Config) (batch : list Request) (rounds : list (selected (Queue := Queue))).

(** The loop over the requests received: with the queue's ids it needs an id
    per request, and renames each request to its id; without them it
    appends the requests as they are. *)
Lemma appendReceived_spec useQueueID msgIDs i txReqs batch :
  appendReceived useQueueID msgIDs i txReqs batch =
  if useQueueID then
    if decide (txReqs = [] ∨ (i + length txReqs ≤ length msgIDs)%nat)
    then Some (batch ++ zip_with withMsgID (drop i msgIDs) txReqs)
    else None
  else Some (batch ++ txReqs).
Proof.
  revert i batch. induction txReqs as [|r rs IH]; intros i batch; cbn [appendReceived].
  - destruct useQueueID.
    + destruct (decide _) as [_|Hbad]; [|exfalso; apply Hbad; by left].
      destruct (drop i msgIDs); simpl; by rewrite app_nil_r.
    + by rewrite app_nil_r.
  - destruct useQueueID.
    + destruct (msgIDs !! i) as [id|] eqn:Hid.
      * rewrite IH. pose proof (lookup_lt_Some _ _ _ Hid) as Hlt.
        rewrite (drop_S _ _ _ Hid). simpl. rewrite <-app_assoc. simpl.
        repeat case_decide; try done; exfalso;
          match goal with Hbad : ¬ _ |- _ => apply Hbad; right end;
          match goal with Hok : _ ∨ _ |- _ => destruct Hok as [?|?] end;
          simplify_eq/=; lia.
      * apply lookup_ge_None in Hid.
        case_decide as Hok; [|done]. destruct Hok as [?|?]; [done|]. simpl in *. lia.
    + rewrite IH. by rewrite <-app_assoc.
Qed.

Lemma appendReceived_prefix useQueueID msgIDs i txReqs batch batch' :
  appendReceived useQueueID msgIDs i txReqs batch = Some batch' → batch `prefix_of` batch'.
Proof.
  rewrite appendReceived_spec. destruct useQueueID.
  - destruct (decide _); [|done]. intros [= <-]. by apply prefix_app_r.
  - intros [= <-]. by apply prefix_app_r.
Qed.

Lemma retrieveLoop_prefix c rounds batch :
  match retrieveLoop ReceiveMany c rounds batch with
  | Return batch' how =>
      (how = ExitCancelled ∧ batch' = []) ∨ (how ≠ ExitCancelled ∧ batch `prefix_of` batch')
  | Panic => UseQueueMessageID c = true
  | Receiving batch' => batch `prefix_of` batch'
  end.
Proof.
  revert batch. induction rounds as [|r rounds IH]; intros batch; cbn [retrieveLoop]; [done|].
  destruct r as [| |q]; [by left|by right|].
  destruct (TxBatchSize c - Z.of_nat (length batch) =? 0); [by right|].
  destruct (ReceiveMany _ q) as [[[msgIDs txReqs] [err|]] q']; [apply IH|].
  destruct (appendReceived (UseQueueMessageID c) msgIDs 0 txReqs batch) as [b1|] eqn:Happ.
  - pose proof (appendReceived_prefix _ _ _ _ _ _ Happ) as Hpre.
    specialize (IH b1).
    destruct (retrieveLoop ReceiveMany c rounds b1) as [b' how| |b']; [|done|by etrans].
    destruct IH as [?|[? ?]]; [by left|right]. split; [done|by etrans].
  - rewrite appendReceived_spec in Happ. by destruct (UseQueueMessageID c).
Qed.

(** X17.  [retrieveBatch] only ever appends to the batch it is gathering:
    whatever the queue answers, what it returns on the timer or on a full
    batch, and what it holds while still receiving, starts with what it
    held before, in the same order; on cancellation it returns nothing,
    dropping what it had received.  It can panic only when
    [UseQueueMessageID] is set. *)
Theorem retrieveBatch_only_appends
    (c : Config) (rounds more : list (selected (Queue := Queue))) (batch : list Request) :
  retrieveLoop ReceiveMany c rounds [] = Receiving batch →
  match retrieveLoop ReceiveMany c (rounds ++ more) [] with
  | Return batch' how =>
      (how = ExitCancelled ∧ batch' = []) ∨ (how ≠ ExitCancelled ∧ batch `prefix_of` batch')
  | Panic => UseQueueMessageID c = true
  | Receiving batch' => batch `prefix_of` batch'
  end.
Proof.
  intros Hrecv. rewrite (retrieveLoop_app ReceiveMany c rounds more [] batch Hrecv).
  apply retrieveLoop_prefix.
Qed.

(** X18.  One round of [retrieveBatch] that reads the queue, the batch not
    being full and the queue answering without an error.  With
    [UseQueueMessageID] unset the requests received are appended as they
    are and the ids are not looked at.  With it set each request is
    appended under the queue's id of the same position; if the queue
    answered fewer ids than requests the index runs out of range and the
    round panics. *)
Theorem retrieveBatch_round_appends_or_panics
    (c : Config) (q q' : Queue) (rounds : list (selected (Queue := Queue)))
    (batch : list Request) (msgIDs : list string) (txReqs : list Request) :
  TxBatchSize c - Z.of_nat (length batch) ≠ 0 →
  ReceiveMany (I32.of_int (TxBatchSize c - Z.of_nat (length batch))) q
    = ((msgIDs, txReqs, None), q') →
  (UseQueueMessageID c = false →
     retrieveLoop ReceiveMany c (Default q :: rounds) batch =
     retrieveLoop ReceiveMany c rounds (batch ++ txReqs)) ∧
  (UseQueueMessageID c = true → (length txReqs ≤ length msgIDs)%nat →
     retrieveLoop ReceiveMany c (Default q :: rounds) batch =
     retrieveLoop ReceiveMany c rounds (batch ++ zip_with withMsgID msgIDs txReqs)) ∧
  (UseQueueMessageID c = true → (length msgIDs < length txReqs)%nat →
     retrieveLoop ReceiveMany c (Default q :: rounds) batch = Panic).
Proof.
  intros Hroom Hrecv. cbn [retrieveLoop].
  destruct (Z.eqb_spec (TxBatchSize c - Z.of_nat (length batch)) 0) as [?|_]; [done|].
  rewrite Hrecv, appendReceived_spec. split; [|split].
  - by intros ->.
  - intros -> Hlen. rewrite decide_True by (right; simpl; lia). by rewrite drop_0.
  - intros -> Hlen. rewrite decide_False; [done|].
    intros [->|?]; simpl in *; lia.
Qed.

Hypothesis ReceiveMany_bounded : receives_at_most ReceiveMany.

Lemma retrieveLoop_nothing_to_fill c rounds :
  - 2 ^ 31 ≤ TxBatchSize c ≤ 0 →
  match retrieveLoop ReceiveMany c rounds [] with
  | Return batch _ => batch = []
  | Panic => False
  | Receiving batch => batch = []
  end.
Proof.
  intros Hsize. induction rounds as [|r rounds IH]; cbn [retrieveLoop]; [done|].
  destruct r as [| |q]; [done..|].
  cbn [length]. rewrite Z.sub_0_r.
  destruct (TxBatchSize c =? 0); [done|].
  destruct (ReceiveMany_bounded (I32.of_int (TxBatchSize c)) q) as [Hmost Hids].
  destruct (ReceiveMany _ q) as [[[msgIDs txReqs] [err|]] q']; simpl in *; [done|].
  assert (I32.of_int (TxBatchSize c) ≤ 0) as Hneg.
  { unfold I32.of_int. rewrite Z.mod_small by lia. lia. }
  destruct txReqs as [|r rs]; [|simpl in Hmost; lia].
  rewrite appendReceived_spec. destruct (UseQueueMessageID c).
  - destruct (decide _) as [_|Hbad]; [|exfalso; apply Hbad; by left].
    simpl. by destruct (drop 0 msgIDs).
  - done.
Qed.

(** X19.  With a [TxBatchSize] of zero, or a negative one (within [int32]),
    and a queue that keeps the promise of [ReceiveMany], [retrieveBatch]
    never gathers a request: what it returns is always empty.  With zero
    the first round that reads finds the batch full and returns the empty
    batch without asking the queue. *)
Theorem retrieveBatch_gathers_nothing_for_no_size
    (t : TxrV2 (Queue := Queue)) (rounds : list (selected (Queue := Queue))) :
  - 2 ^ 31 ≤ TxBatchSize (cfg t) ≤ 0 →
  match retrieveBatch ReceiveMany t rounds with
  | Return batch _ => batch = []
  | Panic => False
  | Receiving batch => batch = []
  end ∧
  (TxBatchSize (cfg t) = 0 →
   ∀ q, retrieveBatch ReceiveMany t (Default q :: rounds) =
        Return [] (ExitFull (WaitFullBatchTimeout (cfg t)))).
Proof.
  intros Hsize. unfold retrieveBatch. split; [by apply retrieveLoop_nothing_to_fill|].
  intros Hzero q. cbn [retrieveLoop length]. by rewrite Hzero.
Qed.

End batch_content.

Lemma retrieveBatch_only_appends_witness :
  transactor.retrieveLoop QueueSpec.mem_ReceiveMany
    (transactor.cfg (BatchExamples.batching 3 false))
    [transactor.Default (take 1 BatchExamples.waiting)] []
  = transactor.Receiving [BatchExamples.req "q1"] ∧
  match transactor.retrieveLoop QueueSpec.mem_ReceiveMany
          (transactor.cfg (BatchExamples.batching 3 false))
          ([transactor.Default (take 1 BatchExamples.waiting)] ++
           [transactor.Default (drop 1 BatchExamples.waiting); transactor.TimerC]) [] with
  | transactor.Return batch' how =>
      (how = transactor.ExitCancelled ∧ batch' = []) ∨
      (how ≠ transactor.ExitCancelled ∧ [BatchExamples.req "q1"] `prefix_of` batch')
  | transactor.Panic => true = true
  | transactor.Receiving batch' => [BatchExamples.req "q1"] `prefix_of` batch'
  end.
Proof.
  split; [vm_compute; reflexivity|].
  apply (retrieveBatch_only_appends QueueSpec.mem_ReceiveMany
           (transactor.cfg (BatchExamples.batching 3 false))
           [transactor.Default (take 1 BatchExamples.waiting)]
           [transactor.Default (drop 1 BatchExamples.waiting); transactor.TimerC]
           [BatchExamples.req "q1"]).
  vm_compute. reflexivity.
Defined.

Lemma retrieveBatch_round_appends_or_panics_witness :
  transactor.retrieveLoop (λ _ q, (([], q.*2, None), []))
    (transactor.cfg (BatchExamples.batching 3 false))
    [transactor.Default BatchExamples.waiting] []
  = transactor.Panic.
Proof.
  refine (proj2 (proj2 (retrieveBatch_round_appends_or_panics
            (λ _ q, (([], q.*2, None), []))
            (transactor.cfg (BatchExamples.batching 3 false))
            BatchExamples.waiting [] [] [] [] (BatchExamples.waiting.*2) _ _)) _ _).
  - vm_compute. discriminate.
  - reflexivity.
  - reflexivity.
  - vm_compute. lia.
Defined.

Lemma retrieveBatch_gathers_nothing_for_no_size_witness :
  match transactor.retrieveBatch QueueSpec.mem_ReceiveMany (BatchExamples.batching (-1) false)
          [transactor.Default BatchExamples.waiting; transactor.TimerC] with
  | transactor.Return batch _ => batch = []
  | transactor.Panic => False
  | transactor.Receiving batch => batch = []
  end.
Proof.
  refine (proj1 (retrieveBatch_gathers_nothing_for_no_size QueueSpec.mem_ReceiveMany
            mem_ReceiveMany_bounded (BatchExamples.batching (-1) false)
            [transactor.Default BatchExamples.waiting; transactor.TimerC] _)).
  simpl. lia.
Defined.

(** ** The transactor: where [fire] leaves a batch *)

Section fire_states.

Import types transactor.

Context {Queue : Type}.
Variable BuildTransactionFromRequests :
  list CallMsg → tracker.Noncer → (option coretypes.Transaction * option error) * tracker.Noncer.
Variable SendTransaction :
  option coretypes.Transaction → tracker.Noncer → option error * tracker.Noncer.
Variable ResponseStatus : Response → Status.

Local Abbreviation fire' := (fire BuildTransactionFromRequests SendTransaction ResponseStatus).
Local Abbreviation fireBody' := (fireBody BuildTransactionFromRequests SendTransaction).

Implicit Types (t : TxrV2 (Queue := Queue)) (resp : Response).

(** The deferred dispatch changes the dispatcher's list and nothing else. *)
Lemma fire_as_body resp toBuild msgs t :
  fst (fire' resp toBuild msgs t) = fst (fireBody' resp toBuild msgs t) ∧
  preconfirmedStates (snd (fire' resp toBuild msgs t))
    = preconfirmedStates (snd (fireBody' resp toBuild msgs t)) ∧
  tracked (snd (fire' resp toBuild msgs t)) = tracked (snd (fireBody' resp toBuild msgs t)) ∧
  noncer (snd (fire' resp toBuild msgs t)) = noncer (snd (fireBody' resp toBuild msgs t)) ∧
  requests (snd (fire' resp toBuild msgs t)) = requests (snd (fireBody' resp toBuild msgs t)) ∧
  dispatched (snd (fire' resp toBuild msgs t)) =
    dispatched (snd (fireBody' resp toBuild msgs t)) ++
    match ResponseStatus (fst (fireBody' resp toBuild msgs t)) with
    | StatusError => [fst (fireBody' resp toBuild msgs t)]
    | _ => []
    end.
Proof.
  unfold fire. destruct (fireBody' resp toBuild msgs t) as [resp' t']. simpl.
  destruct (ResponseStatus resp'); simpl; rewrite ?app_nil_r; done.
Qed.

(** Reads a state through the marks laid over it. *)
Local Ltac read_marks :=
  rewrite ?GetPreconfirmedState_markState; repeat case_decide; done.

(** X20.  The preconfirmed state [fire] leaves the messages of its batch
    in: [StateBuilding] when building failed, [StateSending] when sending
    failed, [StateInFlight] when the transaction was sent.  A failed batch
    is not marked any further by [fire], nor is its tracking removed.
    The state of every other message is as before. *)
Theorem fire_leaves_batch_state
    (resp : Response) (msgs : list CallMsg) (t : TxrV2 (Queue := Queue)) :
  (∀ toBuild msgID, msgID ∉ MsgIDs resp →
     GetPreconfirmedState msgID (snd (fire' resp toBuild msgs t)) = GetPreconfirmedState msgID t) ∧
  (∀ tx err n1 msgID,
     BuildTransactionFromRequests msgs (noncer t) = ((tx, Some err), n1) →
     msgID ∈ MsgIDs resp →
     GetPreconfirmedState msgID (snd (fire' resp true msgs t)) = StateBuilding) ∧
  (∀ tx n1 err n2 msgID,
     BuildTransactionFromRequests msgs (noncer t) = ((tx, None), n1) →
     SendTransaction tx n1 = (Some err, n2) →
     msgID ∈ MsgIDs resp →
     GetPreconfirmedState msgID (snd (fire' resp true msgs t)) = StateSending) ∧
  (∀ err n2 msgID,
     SendTransaction (Transaction resp) (noncer t) = (Some err, n2) →
     msgID ∈ MsgIDs resp →
     GetPreconfirmedState msgID (snd (fire' resp false msgs t)) = StateSending) ∧
  (∀ tx n1 n2 msgID,
     BuildTransactionFromRequests msgs (noncer t) = ((tx, None), n1) →
     SendTransaction tx n1 = (None, n2) →
     msgID ∈ MsgIDs resp →
     GetPreconfirmedState msgID (snd (fire' resp true msgs t)) = StateInFlight) ∧
  (∀ n2 msgID,
     SendTransaction (Transaction resp) (noncer t) = (None, n2) →
     msgID ∈ MsgIDs resp →
     GetPreconfirmedState msgID (snd (fire' resp false msgs t)) = StateInFlight).
Proof.
  assert (Hread : ∀ toBuild msgID,
    GetPreconfirmedState msgID (snd (fire' resp toBuild msgs t)) =
    GetPreconfirmedState msgID (snd (fireBody' resp toBuild msgs t))).
  { intros toBuild msgID. unfold GetPreconfirmedState.
    by destruct (fire_as_body resp toBuild msgs t) as (_ & -> & _). }
  split; [|split; [|split; [|split; [|split]]]].
  - intros toBuild msgID Hout. rewrite Hread. unfold fireBody.
    destruct toBuild; simpl.
    + destruct (BuildTransactionFromRequests msgs (noncer t)) as [[tx [err|]] n1]; simpl.
      * change (GetPreconfirmedState msgID (markState StateBuilding (MsgIDs resp) t)
                = GetPreconfirmedState msgID t).
        read_marks.
      * destruct (SendTransaction tx n1) as [[err|] n2]; simpl.
        -- change (GetPreconfirmedState msgID
                     (markState StateSending (MsgIDs resp)
                        (markState StateBuilding (MsgIDs resp) t))
                   = GetPreconfirmedState msgID t).
           read_marks.
        -- change (GetPreconfirmedState msgID
                     (markState StateInFlight (MsgIDs resp)
                        (markState StateSending (MsgIDs resp)
                           (markState StateBuilding (MsgIDs resp) t)))
                   = GetPreconfirmedState msgID t).
           read_marks.
    + destruct (SendTransaction (Transaction resp) (noncer t)) as [[err|] n2]; simpl.
      * change (GetPreconfirmedState msgID (markState StateSending (MsgIDs resp) t)
                = GetPreconfirmedState msgID t).
        read_marks.
      * change (GetPreconfirmedState msgID
                  (markState StateInFlight (MsgIDs resp)
                     (markState StateSending (MsgIDs resp) t))
                = GetPreconfirmedState msgID t).
        read_marks.
  - intros tx err n1 msgID Hbuild Hin. rewrite Hread. unfold fireBody. simpl.
    rewrite Hbuild. simpl.
    change (GetPreconfirmedState msgID (markState StateBuilding (MsgIDs resp) t) = StateBuilding).
    read_marks.
  - intros tx n1 err n2 msgID Hbuild Hsend Hin. rewrite Hread. unfold fireBody. simpl.
    rewrite Hbuild. simpl. rewrite Hsend. simpl.
    change (GetPreconfirmedState msgID
              (markState StateSending (MsgIDs resp) (markState StateBuilding (MsgIDs resp) t))
            = StateSending).
    read_marks.
  - intros err n2 msgID Hsend Hin. rewrite Hread. unfold fireBody. simpl.
    rewrite Hsend. simpl.
    change (GetPreconfirmedState msgID (markState StateSending (MsgIDs resp) t) = StateSending).
    read_marks.
  - intros tx n1 n2 msgID Hbuild Hsend Hin. rewrite Hread. unfold fireBody. simpl.
    rewrite Hbuild. simpl. rewrite Hsend. simpl.
    change (GetPreconfirmedState msgID
              (markState StateInFlight (MsgIDs resp)
                 (markState StateSending (MsgIDs resp)
                    (markState StateBuilding (MsgIDs resp) t)))
            = StateInFlight).
    read_marks.
  - intros n2 msgID Hsend Hin. rewrite Hread. unfold fireBody. simpl.
    rewrite Hsend. simpl.
    change (GetPreconfirmedState msgID
              (markState StateInFlight (MsgIDs resp) (markState StateSending (MsgIDs resp) t))
            = StateInFlight).
    read_marks.
Qed.

(** X21.  When building and sending succeed, [fire] hands the response,
    with the transaction built and no error, to the tracker, once, and
    leaves the Noncer as the sender left it; it dispatches the response
    itself only if its status is [StatusError].  The queue is not touched. *)
Theorem fire_tracks_what_it_sent
    (resp : Response) (msgs : list CallMsg) (t : TxrV2 (Queue := Queue)) :
  (∀ tx n1 n2,
     BuildTransactionFromRequests msgs (noncer t) = ((tx, None), n1) →
     SendTransaction tx n1 = (None, n2) →
     let out := fire' resp true msgs t in
     Error (fst out) = None ∧ Transaction (fst out) = tx ∧
     MsgIDs (fst out) = MsgIDs resp ∧ InitialTimes (fst out) = InitialTimes resp ∧
     tracked (snd out) = tracked t ++ [fst out] ∧
     noncer (snd out) = n2 ∧ requests (snd out) = requests t ∧
     dispatched (snd out) =
       dispatched t ++
       match ResponseStatus (fst out) with StatusError => [fst out] | _ => [] end) ∧
  (∀ n2,
     SendTransaction (Transaction resp) (noncer t) = (None, n2) →
     let out := fire' resp false msgs t in
     Error (fst out) = None ∧ Transaction (fst out) = Transaction resp ∧
     MsgIDs (fst out) = MsgIDs resp ∧ InitialTimes (fst out) = InitialTimes resp ∧
     tracked (snd out) = tracked t ++ [fst out] ∧
     noncer (snd out) = n2 ∧ requests (snd out) = requests t ∧
     dispatched (snd out) =
       dispatched t ++
       match ResponseStatus (fst out) with StatusError => [fst out] | _ => [] end).
Proof.
  split.
  - intros tx n1 n2 Hbuild Hsend out. subst out.
    destruct (fire_as_body resp true msgs t) as (-> & _ & -> & -> & -> & ->).
    unfold fireBody. simpl. rewrite Hbuild. simpl. rewrite Hsend. simpl. done.
  - intros n2 Hsend out. subst out.
    destruct (fire_as_body resp false msgs t) as (-> & _ & -> & -> & -> & ->).
    unfold fireBody. simpl. rewrite Hsend. simpl. done.
Qed.

End fire_states.

(* ===================================================================== *)
(** * Part V: the batch loop on the clock                                 *)
(* ===================================================================== *)

Section batch_on_clock.

Import types transactor batchclock QueueSpec.

Context {Queue : Type}.
Variable ReceiveMany : Z → Queue → (list string * list Request * option error) * Queue.

Implicit Types (c : Config) (w : world) (batch : list Request) (q : Queue)
  (r : round (Queue := Queue)) (rounds : list (round (Queue := Queue))).

(** With the instants left out, the loop on the clock is the loop over the
    cases its [select]s take. *)
Lemma retrieveAt_untimed c w rounds batch :
  untimed (retrieveAt ReceiveMany c w rounds batch) =
  retrieveLoop ReceiveMany c (select_at c w <$> rounds) batch.
Proof.
  revert batch. induction rounds as [|r rounds IH]; intros batch; [done|].
  cbn [retrieveAt fmap list_fmap retrieveLoop].
  destruct (select_at c w r) as [| |q]; [done..|].
  destruct (TxBatchSize c - Z.of_nat (length batch) =? 0).
  - by destruct (WaitFullBatchTimeout c).
  - destruct (ReceiveMany _ q) as [[[msgIDs txReqs] [err|]] q']; [apply IH|].
    destruct (appendReceived _ _ _ _ _); [apply IH|done].
Qed.

Lemma retrieveAt_app c w rounds more batch batch' :
  retrieveAt ReceiveMany c w rounds batch = ReceivingAt batch' →
  retrieveAt ReceiveMany c w (rounds ++ more) batch = retrieveAt ReceiveMany c w more batch'.
Proof.
  revert batch. induction rounds as [|r rounds IH]; intros batch; cbn [retrieveAt app].
  - by intros [= <-].
  - destruct (select_at c w r) as [| |q]; [done..|].
    destruct (TxBatchSize c - Z.of_nat (length batch) =? 0).
    + by destruct (WaitFullBatchTimeout c).
    + destruct (ReceiveMany _ q) as [[[msgIDs txReqs] [err|]] q']; [apply IH|].
      destruct (appendReceived _ _ _ _ _); [apply IH|done].
Qed.

Lemma select_at_Default c w r q :
  select_at c w r = Default q →
  ctx_done w (at_time r) = false ∧ timer_fired c w (at_time r) = false ∧ q = queue_now r.
Proof.
  unfold select_at.
  destruct (ctx_done w (at_time r)), (timer_fired c w (at_time r)), (prefer_done r);
    intros [=]; done.
Qed.

Lemma select_at_CtxDone c w r : select_at c w r = CtxDone → ctx_done w (at_time r) = true.
Proof.
  unfold select_at.
  by destruct (ctx_done w (at_time r)), (timer_fired c w (at_time r)), (prefer_done r).
Qed.

Lemma select_at_TimerC c w r : select_at c w r = TimerC → timer_fired c w (at_time r) = true.
Proof.
  unfold select_at.
  by destruct (ctx_done w (at_time r)), (timer_fired c w (at_time r)), (prefer_done r).
Qed.

Hypothesis ReceiveMany_bounded : receives_at_most ReceiveMany.

(** What the loop returns, and when, whatever the rounds. *)
Lemma retrieveAt_exits c w rounds batch :
  Z.of_nat (length batch) ≤ TxBatchSize c →
  match retrieveAt ReceiveMany c w rounds batch with
  | ReturnAt batch' how now =>
      Z.of_nat (length batch') ≤ TxBatchSize c ∧
      match how with
      | ExitCancelled => batch' = [] ∧ ctx_done w now = true
      | ExitTimer => timer_fired c w now = true
      | ExitFull waited =>
          Z.of_nat (length batch') = TxBatchSize c ∧
          waited = WaitFullBatchTimeout c ∧
          (waited = true → now = deadline c w) ∧
          (waited = false → ctx_done w now = false ∧ timer_fired c w now = false)
      end
  | PanicAt => False
  | ReceivingAt batch' => Z.of_nat (length batch') ≤ TxBatchSize c
  end.
Proof.
  revert batch. induction rounds as [|r rounds IH]; intros batch Hlen; cbn [retrieveAt]; [done|].
  destruct (select_at c w r) as [| |q] eqn:Hsel.
  - apply select_at_CtxDone in Hsel. simpl. split; [lia|done].
  - apply select_at_TimerC in Hsel. done.
  - apply select_at_Default in Hsel as (Hdone & Htimer & ->).
    destruct (Z.eqb_spec (TxBatchSize c - Z.of_nat (length batch)) 0) as [Hfull|Hroom].
    + destruct (WaitFullBatchTimeout c) eqn:Hwait.
      * split; [done|]. split; [lia|]. split; [done|]. split; done.
      * split; [done|]. split; [lia|]. split; [done|]. split; done.
    + destruct (ReceiveMany_bounded (I32.of_int (TxBatchSize c - Z.of_nat (length batch)))
                  (queue_now r)) as [Hmost Hids].
      destruct (ReceiveMany _ (queue_now r)) as [[[msgIDs txReqs] [err|]] q'];
        simpl in *; [by apply IH|].
      destruct (appendReceived_in_range (UseQueueMessageID c) msgIDs 0 txReqs batch
                  ltac:(lia)) as [batch' Happ].
      rewrite Happ. apply IH. apply appendReceived_length in Happ.
      pose proof (I32_of_int_le (TxBatchSize c - Z.of_nat (length batch)) ltac:(lia)). lia.
Qed.


End batch_on_clock.


